(** * cache-demo: the cache table and its items, verified against the Go source

    Shallow embedding of [cacheitem.go] and [cachetable.go].

    - A [*CacheItem] is a location in a heap of items, so that two handles
      to one item alias and a freshly constructed item is a new location.
    - [sync.RWMutex] is modelled by its state (a writer flag and a reader
      count) as seen by the one goroutine that runs the operation:
      acquiring a lock that cannot be granted blocks for ever, releasing a
      lock that is not held is the run-time's fatal error.
    - [time.Now()] reads a monotonic clock; the time that passes before each
      reading is taken from a list of ticks carried by the world.
    - Callbacks and the data loader's invocation are recorded in a trace;
      callbacks are observers (they do not re-enter the table).
    - [range] over the map visits the keys in an order chosen by
      [range_order], any permutation of the keys.
    - The logger is left out: [table.log] has no effect on the table. *)

From Stdlib Require Import ZArith String List Lia Permutation Sorted.
From stdpp Require Import base option list gmap strings sorting.

Local Open Scope Z_scope.

(** ** Values, keys and 64-bit arithmetic *)

(** A map key: the comparable dynamic values the table is used with. *)
Inductive Key :=
| KStr (s : string)
| KInt (n : Z).

#[global] Instance Key_eq_dec : EqDecision Key.
Proof. solve_decision. Defined.

#[global] Instance Key_countable : Countable Key.
Proof.
  refine (inj_countable'
            (λ k, match k with KStr s => inl s | KInt n => inr n end)
            (λ x, match x with inl s => KStr s | inr n => KInt n end) _).
  by intros [].
Defined.

(** A pointer to a cache item: an index into the heap of items. *)
Abbreviation loc := nat (only parsing).

(** A payload of type [interface{}]. *)
#[warnings="-register-all"]
Inductive Val :=
| VNil
| VStr (s : string)
| VInt (n : Z)
| VItem (p : loc)
| VSlice (vs : list Val).

(** The identity of a registered callback function. *)
Definition CbId := nat.

Definition min_int64 : Z := - 2 ^ 63.
Definition max_int64 : Z := 2 ^ 63 - 1.

Definition in_int64 (z : Z) : Prop := min_int64 <= z <= max_int64.

(** int64 arithmetic wraps around. *)
Definition wrap64 (z : Z) : Z := (z + 2 ^ 63) mod 2 ^ 64 - 2 ^ 63.

(** [t.Sub(u)]: the duration [t - u], saturated to the range of int64. *)
Definition Sub (t u : Z) : Z :=
  if t - u <? min_int64 then min_int64
  else if max_int64 <? t - u then max_int64
  else t - u.

(** ** sync.RWMutex *)

Record RWMutex := { writer : bool; readers : nat }.

Definition unlocked : RWMutex := {| writer := false; readers := 0 |}.

Definition rw_Lock (m : RWMutex) : option RWMutex :=
  if writer m then None
  else match readers m with
       | O => Some {| writer := true; readers := 0 |}
       | S _ => None
       end.

Definition rw_Unlock (m : RWMutex) : option RWMutex :=
  if writer m then Some {| writer := false; readers := readers m |} else None.

Definition rw_RLock (m : RWMutex) : option RWMutex :=
  if writer m then None
  else Some {| writer := false; readers := S (readers m) |}.

Definition rw_RUnlock (m : RWMutex) : option RWMutex :=
  match readers m with
  | O => None
  | S n => Some {| writer := writer m; readers := n |}
  end.

(** ** Data model *)

Record CacheItem := {
  imu : RWMutex;
  key : Key;
  value : Val;
  lifeSpan : Z;
  createdOn : Z;
  accessedOn : Z;
  accessCount : Z;
  aboutToExpire : list CbId
}.

Record Timer := { timer_d : Z; timer_active : bool }.

Definition Loader := Key → list Val → option CacheItem.

Record CacheTable := {
  tmu : RWMutex;
  name : string;
  items : gmap Key loc;
  cleanupTimer : option Timer;
  cleanupInterval : Z;
  loadData : option Loader;
  addItem : list CbId;
  aboutToDeleteItem : list CbId
}.

(** Modelled from the spec: the error values [ErrKeyNotFound] and
    [ErrKeyNotFoundOrLoadable], whose declarations are not among the
    sources (KeyNotFound and KeyNotFoundOrNotLoadable in the spec). *)
Inductive Err :=
| ErrKeyNotFound
| ErrKeyNotFoundOrLoadable.

(** What the environment observes, in order. [EvMapStore] and
    [EvMapDelete] record the writes to [table.items]. *)
Inductive Event :=
| EvAdded (cb : CbId) (item : loc)
| EvAboutToDelete (cb : CbId) (item : loc)
| EvAboutToExpire (owner : loc) (cb : CbId) (k : Key)
| EvLoad (k : Key) (args : list Val)
| EvMapStore (k : Key) (item : loc)
| EvMapDelete (k : Key).

Record World := {
  heap : list CacheItem;
  tbl : CacheTable;
  clock : Z;
  ticks : list N;
  trace : list Event
}.

(** ** The monad of operations *)

Inductive Outcome (A : Type) : Type :=
| Ok (a : A) (w : World)
| Fatal (msg : string) (w : World)
| Blocked (w : World).

Arguments Ok {A} a w.
Arguments Fatal {A} msg w.
Arguments Blocked {A} w.

Definition M (A : Type) : Type := World → Outcome A.

Definition ret {A} (a : A) : M A := λ w, Ok a w.

Definition bind {A B} (c : M A) (k : A → M B) : M B :=
  λ w, match c w with
       | Ok a w' => k a w'
       | Fatal msg w' => Fatal msg w'
       | Blocked w' => Blocked w'
       end.

Notation "x <- c ;; k" := (bind c (λ x, k))
  (at level 100, c at next level, right associativity).
Notation "c ;;; k" := (bind c (λ _, k))
  (at level 100, right associativity).

(** The world an operation ends in, or stops in. *)
Definition world_of {A} (o : Outcome A) : World :=
  match o with Ok _ w | Fatal _ w | Blocked w => w end.

Definition set_tbl (t : CacheTable) (w : World) : World :=
  {| heap := heap w; tbl := t; clock := clock w; ticks := ticks w;
     trace := trace w |}.

Definition set_heap (h : list CacheItem) (w : World) : World :=
  {| heap := h; tbl := tbl w; clock := clock w; ticks := ticks w;
     trace := trace w |}.

Definition emit (es : list Event) : M unit :=
  λ w, Ok tt {| heap := heap w; tbl := tbl w; clock := clock w;
                ticks := ticks w; trace := trace w ++ es |}.

Definition get_table : M CacheTable := λ w, Ok (tbl w) w.

Definition set_tmu (m : RWMutex) (t : CacheTable) : CacheTable :=
  {| tmu := m; name := name t; items := items t;
     cleanupTimer := cleanupTimer t; cleanupInterval := cleanupInterval t;
     loadData := loadData t; addItem := addItem t;
     aboutToDeleteItem := aboutToDeleteItem t |}.

Definition set_items (m : gmap Key loc) (t : CacheTable) : CacheTable :=
  {| tmu := tmu t; name := name t; items := m;
     cleanupTimer := cleanupTimer t; cleanupInterval := cleanupInterval t;
     loadData := loadData t; addItem := addItem t;
     aboutToDeleteItem := aboutToDeleteItem t |}.

Definition set_timer (tm : option Timer) (t : CacheTable) : CacheTable :=
  {| tmu := tmu t; name := name t; items := items t;
     cleanupTimer := tm; cleanupInterval := cleanupInterval t;
     loadData := loadData t; addItem := addItem t;
     aboutToDeleteItem := aboutToDeleteItem t |}.

Definition set_interval (d : Z) (t : CacheTable) : CacheTable :=
  {| tmu := tmu t; name := name t; items := items t;
     cleanupTimer := cleanupTimer t; cleanupInterval := d;
     loadData := loadData t; addItem := addItem t;
     aboutToDeleteItem := aboutToDeleteItem t |}.

(** [table.cleanupTimer.Stop()] when a timer was ever set. *)
Definition stop_timer (t : CacheTable) : CacheTable :=
  match cleanupTimer t with
  | Some tm =>
      set_timer (Some {| timer_d := timer_d tm; timer_active := false |}) t
  | None => t
  end.

(** [time.AfterFunc(d, ...)]: a new one-shot timer, armed for [d]. *)
Definition arm_timer (d : Z) (t : CacheTable) : CacheTable :=
  set_timer (Some {| timer_d := d; timer_active := true |}) t.

Definition modify_table (f : CacheTable → CacheTable) : M unit :=
  λ w, Ok tt {| heap := heap w; tbl := f (tbl w); clock := clock w;
                ticks := ticks w; trace := trace w |}.

Definition set_imu (m : RWMutex) (it : CacheItem) : CacheItem :=
  {| imu := m; key := key it; value := value it; lifeSpan := lifeSpan it;
     createdOn := createdOn it; accessedOn := accessedOn it;
     accessCount := accessCount it; aboutToExpire := aboutToExpire it |}.

Definition unlock_msg : string := "sync: Unlock of unlocked RWMutex".
Definition runlock_msg : string := "sync: RUnlock of unlocked RWMutex".
Definition nil_msg : string := "invalid memory address or nil pointer dereference".

(** Lock operations on the table's embedded mutex. *)
Definition table_op (op : RWMutex → option RWMutex) (fail : M unit)
  : M unit :=
  λ w, match op (tmu (tbl w)) with
       | Some m => Ok tt (set_tbl (set_tmu m (tbl w)) w)
       | None => fail w
       end.

Definition table_Lock : M unit := table_op rw_Lock Blocked.
Definition table_Unlock : M unit := table_op rw_Unlock (Fatal unlock_msg).
Definition table_RLock : M unit := table_op rw_RLock Blocked.
Definition table_RUnlock : M unit := table_op rw_RUnlock (Fatal runlock_msg).

(** Reading through an item pointer. *)
Definition deref (p : loc) : M CacheItem :=
  λ w, match heap w !! p with
       | Some it => Ok it w
       | None => Fatal nil_msg w
       end.

Definition store (p : loc) (it : CacheItem) : M unit :=
  λ w, Ok tt (set_heap (<[p := it]> (heap w)) w).

(** Lock operations on an item's embedded mutex. *)
Definition item_op (op : RWMutex → option RWMutex) (fail : M unit)
  (p : loc) : M unit :=
  it <- deref p ;;
  match op (imu it) with
  | Some m => store p (set_imu m it)
  | None => fail
  end.

Definition item_Lock : loc → M unit := item_op rw_Lock Blocked.
Definition item_Unlock : loc → M unit := item_op rw_Unlock (Fatal unlock_msg).
Definition item_RLock : loc → M unit := item_op rw_RLock Blocked.
Definition item_RUnlock : loc → M unit :=
  item_op rw_RUnlock (Fatal runlock_msg).

(** [new(CacheItem)]: a fresh location. *)
Definition alloc (it : CacheItem) : M loc :=
  λ w, Ok (length (heap w)) (set_heap (heap w ++ [it]) w).

(** [time.Now()]. *)
Definition time_Now : M Z :=
  λ w, match ticks w with
       | [] => Ok (clock w) w
       | d :: ds =>
           Ok (clock w + Z.of_N d)
              {| heap := heap w; tbl := tbl w; clock := clock w + Z.of_N d;
                 ticks := ds; trace := trace w |}
       end.

(** [table.items[k] = p] and [delete(table.items, k)]. *)
Definition map_store (k : Key) (p : loc) : M unit :=
  λ w, Ok tt {| heap := heap w;
                tbl := set_items (<[k := p]> (items (tbl w))) (tbl w);
                clock := clock w; ticks := ticks w;
                trace := trace w ++ [EvMapStore k p] |}.

Definition map_delete (k : Key) : M unit :=
  λ w, Ok tt {| heap := heap w;
                tbl := set_items (delete k (items (tbl w))) (tbl w);
                clock := clock w; ticks := ticks w;
                trace := trace w ++ [EvMapDelete k] |}.

(** ** cacheitem.go *)

Definition NewCacheItem (k : Key) (d : Z) (v : Val) : M loc :=
  now <- time_Now ;;
  alloc {| imu := unlocked; key := k; value := v; lifeSpan := d;
           createdOn := now; accessedOn := now; accessCount := 0;
           aboutToExpire := [] |}.

Definition KeepAlive (p : loc) : M unit :=
  item_Lock p ;;;
  now <- time_Now ;;
  it <- deref p ;;
  store p {| imu := imu it; key := key it; value := value it;
             lifeSpan := lifeSpan it; createdOn := createdOn it;
             accessedOn := now; accessCount := wrap64 (accessCount it + 1);
             aboutToExpire := aboutToExpire it |} ;;;
  item_Unlock p.

Definition set_aboutToExpire (cbs : list CbId) (it : CacheItem) : CacheItem :=
  {| imu := imu it; key := key it; value := value it;
     lifeSpan := lifeSpan it; createdOn := createdOn it;
     accessedOn := accessedOn it; accessCount := accessCount it;
     aboutToExpire := cbs |}.

Definition AddAboutToExpireCallback (p : loc) (f : CbId) : M unit :=
  item_Lock p ;;;
  it <- deref p ;;
  store p (set_aboutToExpire (aboutToExpire it ++ [f]) it) ;;;
  item_Unlock p.

Definition RemoveAboutToExpireCallback (p : loc) : M unit :=
  item_Lock p ;;;
  it <- deref p ;;
  store p (set_aboutToExpire [] it) ;;;
  item_Unlock p.

Definition SetAboutToExpireCallback (p : loc) (f : CbId) : M unit :=
  it <- deref p ;;
  (if (0 <? length (aboutToExpire it))%nat
   then RemoveAboutToExpireCallback p else ret tt) ;;;
  item_Lock p ;;;
  it' <- deref p ;;
  store p (set_aboutToExpire (aboutToExpire it' ++ [f]) it') ;;;
  item_Unlock p.

(** ** cachetable.go *)

Definition set_loadData (ld : option Loader) (t : CacheTable) : CacheTable :=
  {| tmu := tmu t; name := name t; items := items t;
     cleanupTimer := cleanupTimer t; cleanupInterval := cleanupInterval t;
     loadData := ld; addItem := addItem t;
     aboutToDeleteItem := aboutToDeleteItem t |}.

Definition set_addItem (cbs : list CbId) (t : CacheTable) : CacheTable :=
  {| tmu := tmu t; name := name t; items := items t;
     cleanupTimer := cleanupTimer t; cleanupInterval := cleanupInterval t;
     loadData := loadData t; addItem := cbs;
     aboutToDeleteItem := aboutToDeleteItem t |}.

Definition set_aboutToDeleteItem (cbs : list CbId) (t : CacheTable)
  : CacheTable :=
  {| tmu := tmu t; name := name t; items := items t;
     cleanupTimer := cleanupTimer t; cleanupInterval := cleanupInterval t;
     loadData := loadData t; addItem := addItem t;
     aboutToDeleteItem := cbs |}.

Definition SetDataLoader (f : Loader) : M unit :=
  table_RLock ;;;
  modify_table (set_loadData (Some f)) ;;;
  table_RUnlock.

Definition AddAddedItemCallback (f : CbId) : M unit :=
  table_RLock ;;;
  modify_table (λ t, set_addItem (addItem t ++ [f]) t) ;;;
  table_RUnlock.

Definition RemoveAddedItemCallbacks : M unit :=
  table_Lock ;;;
  modify_table (set_addItem []) ;;;
  table_Unlock.

Definition SetAddedItemCallback (f : CbId) : M unit :=
  t <- get_table ;;
  (if (0 <? length (addItem t))%nat
   then RemoveAddedItemCallbacks else ret tt) ;;;
  AddAddedItemCallback f.

Definition AddAboutToDeleteItemCallback (f : CbId) : M unit :=
  table_Lock ;;;
  modify_table (λ t, set_aboutToDeleteItem (aboutToDeleteItem t ++ [f]) t) ;;;
  table_Unlock.

Definition RemoveAboutToDeleteItemCallback : M unit :=
  table_Lock ;;;
  modify_table (set_aboutToDeleteItem []) ;;;
  table_Unlock.

Definition SetAboutToDeleteItemCallback (f : CbId) : M unit :=
  t <- get_table ;;
  (if (0 <? length (aboutToDeleteItem t))%nat
   then RemoveAboutToDeleteItemCallback else ret tt) ;;;
  table_Lock ;;;
  modify_table (λ t, set_aboutToDeleteItem (aboutToDeleteItem t ++ [f]) t) ;;;
  table_Unlock.

Definition Count : M Z :=
  table_RLock ;;;
  t <- get_table ;;
  table_RUnlock ;;;
  ret (Z.of_nat (size (items t))).

Definition Exists (k : Key) : M bool :=
  table_RLock ;;;
  t <- get_table ;;
  table_RUnlock ;;;
  ret (bool_decide (is_Some (items t !! k))).

Definition deleteInternal (k : Key) : M (option loc * option Err) :=
  t <- get_table ;;
  match items t !! k with
  | None => ret (None, Some ErrKeyNotFound)
  | Some r =>
      let aboutToDelete := aboutToDeleteItem t in
      table_Unlock ;;;
      emit (map (λ cb, EvAboutToDelete cb r) aboutToDelete) ;;;
      item_RLock r ;;;
      it <- deref r ;;
      emit (map (λ cb, EvAboutToExpire r cb k) (aboutToExpire it)) ;;;
      table_Lock ;;;
      map_delete k ;;;
      (* deferred: r.Unlock() *)
      item_Unlock r ;;;
      ret (Some r, None)
  end.

Definition Delete (k : Key) : M (option loc * option Err) :=
  table_Lock ;;;
  map_delete k ;;;
  res <- deleteInternal k ;;
  (* deferred: table.Unlock() *)
  table_Unlock ;;;
  ret res.

Record CacheItemPair := { PKey : Key; PAccessCount : Z }.

(** [CacheItemPairList.Less], on the elements compared. *)
Definition Less (a b : CacheItemPair) : bool :=
  PAccessCount b <? PAccessCount a.

Section Table.

(** The order in which [range table.items] yields the keys. *)
Variable range_order : gmap Key loc → list Key.

(** [sort.Sort] of the standard library, on a [CacheItemPairList]. *)
Variable sort_Sort : list CacheItemPair → list CacheItemPair.

(** The loop of [expirationCheck]; an entry removed before it is reached
    is not produced. *)
Fixpoint sweep (now : Z) (keys : list Key) (smallestDuration : Z) : M Z :=
  match keys with
  | [] => ret smallestDuration
  | k :: ks =>
      t <- get_table ;;
      match items t !! k with
      | None => sweep now ks smallestDuration
      | Some item =>
          item_RLock item ;;;
          it <- deref item ;;
          item_RUnlock item ;;;
          if lifeSpan it =? 0 then sweep now ks smallestDuration
          else if lifeSpan it <=? Sub now (accessedOn it) then
            deleteInternal k ;;;
            sweep now ks smallestDuration
          else
            let remaining := wrap64 (lifeSpan it - Sub now (accessedOn it)) in
            if (smallestDuration =? 0) || (remaining <? smallestDuration)
            then sweep now ks remaining
            else sweep now ks smallestDuration
      end
  end.

Definition expirationCheck : M unit :=
  table_Lock ;;;
  modify_table stop_timer ;;;
  now <- time_Now ;;
  t <- get_table ;;
  smallestDuration <- sweep now (range_order (items t)) 0 ;;
  modify_table (set_interval smallestDuration) ;;;
  (if 0 <? smallestDuration
   then modify_table (arm_timer smallestDuration)
   else ret tt) ;;;
  table_Unlock.

Definition sweep_due (d expDur : Z) : bool :=
  (0 <? d) && ((expDur =? 0) || (d <? expDur)).

Definition addInternal (item : loc) : M unit :=
  it <- deref item ;;
  map_store (key it) item ;;;
  t <- get_table ;;
  let expDur := cleanupInterval t in
  let addedItem := addItem t in
  table_Unlock ;;;
  emit (map (λ cb, EvAdded cb item) addedItem) ;;;
  if sweep_due (lifeSpan it) expDur then expirationCheck else ret tt.

Definition Add (k : Key) (d : Z) (v : Val) : M loc :=
  item <- NewCacheItem k d v ;;
  table_Lock ;;;
  addInternal item ;;;
  ret item.

Definition NotFoundAdd (k : Key) (d : Z) (v : Val) : M bool :=
  table_Lock ;;;
  t <- get_table ;;
  match items t !! k with
  | Some _ => table_Unlock ;;; ret false
  | None =>
      item <- NewCacheItem k d v ;;
      addInternal item ;;;
      ret true
  end.

(** [loadData(key, args)] hands the variadic arguments over as one slice
    value; the item the loader builds is a new location. *)
Definition Value (k : Key) (args : list Val) : M (option loc * option Err) :=
  table_RLock ;;;
  t <- get_table ;;
  table_RUnlock ;;;
  match items t !! k with
  | Some item => KeepAlive item ;;; ret (Some item, None)
  | None =>
      match loadData t with
      | Some load =>
          emit [EvLoad k [VSlice args]] ;;;
          match load k [VSlice args] with
          | Some loaded =>
              item <- alloc loaded ;;
              it <- deref item ;;
              Add k (lifeSpan it) (VItem item) ;;;
              ret (Some item, None)
          | None => ret (None, Some ErrKeyNotFoundOrLoadable)
          end
      | None => ret (None, Some ErrKeyNotFound)
      end
  end.

Definition Flush : M unit :=
  table_Lock ;;;
  modify_table (set_items ∅) ;;;
  modify_table (set_interval 0) ;;;
  modify_table stop_timer ;;;
  (* deferred: table.Unlock() *)
  table_Unlock.

(** The first loop of [MostAccessed]. *)
Fixpoint pairs_of (keys : list Key) : M (list CacheItemPair) :=
  match keys with
  | [] => ret []
  | k :: ks =>
      t <- get_table ;;
      match items t !! k with
      | None => pairs_of ks
      | Some v =>
          it <- deref v ;;
          rest <- pairs_of ks ;;
          ret ({| PKey := k; PAccessCount := accessCount it |} :: rest)
      end
  end.

(** The second loop of [MostAccessed]. *)
Fixpoint top_items (m : gmap Key loc) (count c : Z)
  (p : list CacheItemPair) : list loc :=
  match p with
  | [] => []
  | val :: rest =>
      if count <=? c then []
      else match m !! PKey val with
           | Some item => item :: top_items m count (wrap64 (c + 1)) rest
           | None => top_items m count (wrap64 (c + 1)) rest
           end
  end.

Definition MostAccessed (count : Z) : M (list loc) :=
  table_RLock ;;;
  t <- get_table ;;
  p <- pairs_of (range_order (items t)) ;;
  let result := top_items (items t) count 0 (sort_Sort p) in
  (* deferred: table.Unlock() *)
  table_Unlock ;;;
  ret result.

End Table.

(** ** Vocabulary of the statements *)

Definition locked : RWMutex := {| writer := true; readers := 0 |}.

(** The item a key leads to, through the map and the heap. *)
Definition item_at (h : list CacheItem) (m : gmap Key loc) (k : Key)
  : option CacheItem :=
  m !! k ≫= λ p, h !! p.

Definition item_of (w : World) (k : Key) : option CacheItem :=
  item_at (heap w) (items (tbl w)) k.

(** Every item of the map is allocated, with its lock free. *)
Definition valid (w : World) : Prop :=
  ∀ k p, items (tbl w) !! k = Some p →
         ∃ it, heap w !! p = Some it ∧ imu it = unlocked.

(** No goroutine is inside the table: its lock is free, and so are the
    locks of its items. *)
Definition quiescent (w : World) : Prop :=
  tmu (tbl w) = unlocked ∧ valid w.

(** Lifespans are int64 durations and no item was accessed in the future
    of the clock. *)
Definition timely (w : World) : Prop :=
  ∀ k it, item_of w k = Some it →
          in_int64 (lifeSpan it) ∧ accessedOn it <= clock w.

(** The next reading of the clock. *)
Definition now_of (w : World) : Z :=
  match ticks w with
  | [] => clock w
  | d :: _ => clock w + Z.of_N d
  end.

(** The test of [expirationCheck] for removing an item. *)
Definition due (now : Z) (it : CacheItem) : bool :=
  negb (lifeSpan it =? 0) && (lifeSpan it <=? Sub now (accessedOn it)).

(** No item of the table is due at the next reading of the clock. *)
Definition calm (w : World) : Prop :=
  ∀ k it, item_of w k = Some it → due (now_of w) it = false.

(** Lifespan minus time since last access. *)
Definition remaining (now : Z) (it : CacheItem) : Z :=
  lifeSpan it - (now - accessedOn it).

(** [d] is the minimum remaining time-to-live over the items of the table
    with a nonzero lifespan, and 0 when there is none. *)
Definition min_remaining (now : Z) (w : World) (d : Z) : Prop :=
  (d = 0 ∧ ∀ k it, item_of w k = Some it → lifeSpan it = 0)
  ∨ ((∃ k it, item_of w k = Some it ∧ lifeSpan it ≠ 0
              ∧ d = remaining now it)
     ∧ ∀ k it, item_of w k = Some it → lifeSpan it ≠ 0
               → d <= remaining now it).

(** A one-shot timer is pending, for the duration [d]. *)
Definition armed (t : CacheTable) (d : Z) : Prop :=
  cleanupTimer t = Some {| timer_d := d; timer_active := true |}.

Definition idle (t : CacheTable) : Prop :=
  ∀ tm, cleanupTimer t = Some tm → timer_active tm = false.

(** The first item of the iteration that the sweep finds due. *)
Fixpoint first_due (now : Z) (h : list CacheItem) (m : gmap Key loc)
  (keys : list Key) : option (Key * loc * CacheItem) :=
  match keys with
  | [] => None
  | k :: ks =>
      match m !! k with
      | None => first_due now h m ks
      | Some p =>
          match h !! p with
          | None => first_due now h m ks
          | Some it => if due now it then Some (k, p, it)
                       else first_due now h m ks
          end
      end
  end.

(** One round of the sweep's search for the smallest duration. *)
Definition next_smallest (now : Z) (it : CacheItem) (acc : Z) : Z :=
  if lifeSpan it =? 0 then acc
  else if (acc =? 0)
          || (wrap64 (lifeSpan it - Sub now (accessedOn it)) <? acc)
       then wrap64 (lifeSpan it - Sub now (accessedOn it))
       else acc.

Fixpoint smallest_of (now : Z) (h : list CacheItem) (m : gmap Key loc)
  (keys : list Key) (acc : Z) : Z :=
  match keys with
  | [] => acc
  | k :: ks =>
      match item_at h m k with
      | Some it => smallest_of now h m ks (next_smallest now it acc)
      | None => smallest_of now h m ks acc
      end
  end.

(** The world in which [deleteInternal k] stops when it finds [k]: the
    callbacks have run, the entry is gone, the item is still read-locked
    and the deferred [r.Unlock()] has failed. *)
Definition crash_world (k : Key) (p : loc) (it : CacheItem) (w : World)
  : World :=
  {| heap := <[p := set_imu {| writer := false; readers := 1 |} it]> (heap w);
     tbl := set_items (delete k (items (tbl w))) (tbl w);
     clock := clock w; ticks := ticks w;
     trace := trace w
              ++ map (λ cb, EvAboutToDelete cb p) (aboutToDeleteItem (tbl w))
              ++ map (λ cb, EvAboutToExpire p cb k) (aboutToExpire it)
              ++ [EvMapDelete k] |}.

(** The world of the sweep once the lock is taken, the old timer stopped
    and the clock read. *)
Definition sweep_start (w : World) : World :=
  {| heap := heap w; tbl := stop_timer (set_tmu locked (tbl w));
     clock := now_of w; ticks := tail (ticks w); trace := trace w |}.

(** The world a sweep that removed nothing returns in. *)
Definition sweep_end (d : Z) (w : World) : World :=
  {| heap := heap w;
     tbl := set_tmu unlocked
              (if 0 <? d then arm_timer d (set_interval d (tbl w))
               else set_interval d (tbl w));
     clock := clock w; ticks := ticks w; trace := trace w |}.

(** The world [Delete k] returns in. *)
Definition after_Delete (k : Key) (w : World) : World :=
  {| heap := heap w; tbl := set_items (delete k (items (tbl w))) (tbl w);
     clock := clock w; ticks := ticks w;
     trace := trace w ++ [EvMapDelete k] |}.

(** The item [NewCacheItem k d v] builds when the clock reads [now]. *)
Definition new_item (k : Key) (d : Z) (v : Val) (now : Z) : CacheItem :=
  {| imu := unlocked; key := k; value := v; lifeSpan := d;
     createdOn := now; accessedOn := now; accessCount := 0;
     aboutToExpire := [] |}.

(** The world once [addInternal] has stored the new item and run the
    on-add callbacks, before the expiration check it may hand over to. *)
Definition after_add (k : Key) (d : Z) (v : Val) (w : World) : World :=
  {| heap := heap w ++ [new_item k d v (now_of w)];
     tbl := set_items (<[k := length (heap w)]> (items (tbl w))) (tbl w);
     clock := now_of w; ticks := tail (ticks w);
     trace := trace w
              ++ EvMapStore k (length (heap w))
                 :: map (λ cb, EvAdded cb (length (heap w)))
                      (addItem (tbl w)) |}.

(** The world once the loader has been called and has built its item. *)
Definition after_load (k : Key) (args : list Val) (loaded : CacheItem)
  (w : World) : World :=
  {| heap := heap w ++ [loaded]; tbl := tbl w; clock := clock w;
     ticks := ticks w; trace := trace w ++ [EvLoad k [VSlice args]] |}.



(** The item after [KeepAlive] when the clock reads [now]. *)
Definition kept_alive (now : Z) (it : CacheItem) : CacheItem :=
  {| imu := imu it; key := key it; value := value it;
     lifeSpan := lifeSpan it; createdOn := createdOn it;
     accessedOn := now; accessCount := wrap64 (accessCount it + 1);
     aboutToExpire := aboutToExpire it |}.

(** The world [Value k] returns in when it finds item [p]. *)
Definition after_hit (p : loc) (it : CacheItem) (w : World) : World :=
  {| heap := <[p := kept_alive (now_of w) it]> (heap w); tbl := tbl w;
     clock := now_of w; ticks := tail (ticks w); trace := trace w |}.

(** The world [Flush] returns in. *)
Definition after_Flush (w : World) : World :=
  {| heap := heap w;
     tbl := set_tmu unlocked
              (stop_timer (set_interval 0 (set_items ∅ (tbl w))));
     clock := clock w; ticks := ticks w; trace := trace w |}.

(** A deletion callback that concerns item [p]: an about-to-delete
    callback called with [p], or one of [p]'s own expiry callbacks. *)
Definition deletion_callback_of (p : loc) (e : Event) : Prop :=
  match e with
  | EvAboutToDelete _ r => r = p
  | EvAboutToExpire r _ _ => r = p
  | _ => False
  end.

(** [n] calls in a row. *)
Fixpoint times {A} (n : nat) (c : M A) : M unit :=
  match n with
  | O => ret tt
  | S n' => c ;;; times n' c
  end.

(** The pairs the first loop of [MostAccessed] collects. *)
Fixpoint pairs_list (h : list CacheItem) (m : gmap Key loc)
  (keys : list Key) : list CacheItemPair :=
  match keys with
  | [] => []
  | k :: ks =>
      match item_at h m k with
      | Some it =>
          {| PKey := k; PAccessCount := accessCount it |}
          :: pairs_list h m ks
      | None => pairs_list h m ks
      end
  end.

(** The access count read through an item pointer. *)
Definition access_of (h : list CacheItem) (p : loc) : Z :=
  from_option accessCount 0 (h !! p).

(** The order [sort.Sort] establishes with [Less]: no element is [Less]
    than one before it. *)
Definition by_Less (a b : CacheItemPair) : Prop := Less b a = false.

(** Non-increasing access count. *)
Definition by_access (h : list CacheItem) (p q : loc) : Prop :=
  access_of h q <= access_of h p.

(** No two keys lead to one item. *)
Definition injective_items (w : World) : Prop :=
  ∀ k1 k2 p, items (tbl w) !! k1 = Some p → items (tbl w) !! k2 = Some p →
             k1 = k2.

(** The worlds the operations are called in. *)
Definition well_formed (w : World) : Prop :=
  quiescent w ∧ timely w ∧ injective_items w.

(** The lifespans a loader supplies are int64 durations. *)
Definition loader_ok (t : CacheTable) : Prop :=
  ∀ load k args it, loadData t = Some load → load k args = Some it →
                    in_int64 (lifeSpan it).

(** ** Decidable forms of the conditions, and a concrete iteration order *)

(** Every entry of the map leads to an allocated item that passes [P]. *)
Definition check_items (P : CacheItem → bool) (w : World) : bool :=
  forallb (λ kp : Key * loc,
             match heap w !! kp.2 with
             | Some it => P it
             | None => false
             end)
          (map_to_list (items (tbl w))).

Definition mutex_free (m : RWMutex) : bool :=
  negb (writer m) && Nat.eqb (readers m) 0.

Definition quiescentb (w : World) : bool :=
  mutex_free (tmu (tbl w)) && check_items (λ it, mutex_free (imu it)) w.

Definition calmb (w : World) : bool :=
  check_items (λ it, negb (due (now_of w) it)) w.

Definition timelyb (w : World) : bool :=
  check_items (λ it, (min_int64 <=? lifeSpan it)
                     && (lifeSpan it <=? max_int64)
                     && (accessedOn it <=? clock w)) w.

(** No key other than [k] leads to [p]. *)
Definition only_key (k : Key) (p : loc) (w : World) : bool :=
  forallb (λ kp : Key * loc,
             bool_decide (kp.1 = k) || negb (Nat.eqb kp.2 p))
          (map_to_list (items (tbl w))).

(** One iteration order: that of the map's list of entries. *)
Definition key_order (m : gmap Key loc) : list Key := (map_to_list m).*1.

(** One sort that meets the contract of [sort.Sort]: insertion sort. *)
Fixpoint insert_pair (a : CacheItemPair) (l : list CacheItemPair)
  : list CacheItemPair :=
  match l with
  | [] => [a]
  | b :: l' => if Less b a then b :: insert_pair a l' else a :: l
  end.

Definition insertion_sort (l : list CacheItemPair) : list CacheItemPair :=
  foldr insert_pair [] l.

(** ** The table of the repository's test, and variations *)

Definition second : Z := 1000000000.

Definition test_table (m : gmap Key loc) (interval : Z)
  (tm : option Timer) (ld : option Loader) : CacheTable :=
  {| tmu := unlocked; name := "testCache"; items := m;
     cleanupTimer := tm; cleanupInterval := interval; loadData := ld;
     addItem := [1%nat]; aboutToDeleteItem := [2%nat] |}.

(** A never-expiring item, with one expiry callback registered. *)
Definition item_1 : CacheItem :=
  {| imu := unlocked; key := KStr "testkey_1"; value := VStr "testvalue";
     lifeSpan := 0; createdOn := 0; accessedOn := 0; accessCount := 0;
     aboutToExpire := [3%nat] |}.

Definition item_2 : CacheItem :=
  new_item (KStr "testkey_2") second (VStr "testvalue") 0.

Definition item_3 : CacheItem :=
  new_item (KStr "testkey_3") (2 * second) (VStr "testvalue") 0.

(** The table of [TestCache] when the clock reads [c]: both items were
    added at time 0 and a timer is armed for one second. *)
Definition test_world (c : Z) (tk : list N) : World :=
  {| heap := [item_1; item_2];
     tbl := test_table
              (list_to_map [(KStr "testkey_1", 0%nat);
                            (KStr "testkey_2", 1%nat)])
              second (Some {| timer_d := second; timer_active := true |})
              None;
     clock := c; ticks := tk; trace := [] |}.

(** The same with a third item, of lifespan two seconds. *)
Definition test_world_3 (c : Z) (tk : list N) : World :=
  {| heap := [item_1; item_2; item_3];
     tbl := test_table
              (list_to_map [(KStr "testkey_1", 0%nat);
                            (KStr "testkey_2", 1%nat);
                            (KStr "testkey_3", 2%nat)])
              second (Some {| timer_d := second; timer_active := true |})
              None;
     clock := c; ticks := tk; trace := [] |}.

(** Modelled from the spec: the constructor [Cache(name)] is not among the
    sources. A new table has its name, no item, no timer armed
    ([cleanupInterval] 0), no loader and no callback. *)
Definition Cache (table : string) (tk : list N) : World :=
  {| heap := [];
     tbl := {| tmu := unlocked; name := table; items := ∅;
               cleanupTimer := None; cleanupInterval := 0;
               loadData := None; addItem := [];
               aboutToDeleteItem := [] |};
     clock := 0; ticks := tk; trace := [] |}.

(** An empty table with the callbacks of [test_table] registered. *)
Definition empty_world (ld : option Loader) (tk : list N) : World :=
  {| heap := []; tbl := test_table ∅ 0 None ld; clock := 0; ticks := tk;
     trace := [] |}.

(** A loader that knows the key "z" only, and yields an item of lifespan
    [d] for it. *)
Definition z_loader (d : Z) : Loader :=
  λ k _, if bool_decide (k = KStr "z")
         then Some (new_item k d (VStr "loaded") 0)
         else None.


(** ** The getters of cacheitem.go, Foreach, and the calls a user makes *)

Definition LifeSpan (p : loc) : M Z :=
  it <- deref p ;; ret (lifeSpan it).

Definition AccessedOn (p : loc) : M Z :=
  item_RLock p ;;;
  it <- deref p ;;
  item_RUnlock p ;;;
  ret (accessedOn it).

Definition CreatedOn (p : loc) : M Z :=
  it <- deref p ;; ret (createdOn it).

Definition AccessCount (p : loc) : M Z :=
  item_RLock p ;;;
  it <- deref p ;;
  item_RUnlock p ;;;
  ret (accessCount it).

(** [item.Key()] and [item.Value()]. *)
Definition CacheItem_Key (p : loc) : M Key :=
  it <- deref p ;; ret (key it).

Definition CacheItem_Value (p : loc) : M Val :=
  it <- deref p ;; ret (value it).

Section Iteration.

Variable range_order : gmap Key loc → list Key.

(** The loop of [Foreach]; [trans] is the caller's code. *)
Fixpoint foreach_loop (trans : Key → loc → M unit) (keys : list Key)
  : M unit :=
  match keys with
  | [] => ret tt
  | k :: ks =>
      t <- get_table ;;
      match items t !! k with
      | None => foreach_loop trans ks
      | Some v => trans k v ;;; foreach_loop trans ks
      end
  end.

Definition Foreach (trans : Key → loc → M unit) : M unit :=
  table_RLock ;;;
  t <- get_table ;;
  foreach_loop trans (range_order (items t)) ;;;
  (* deferred: table.RUnlock() *)
  table_RUnlock.

(** One call of the table's interface, its result dropped. [CallSweep] is
    the firing of the timer. *)
Inductive Call :=
| CallAdd (k : Key) (d : Z) (v : Val)
| CallNotFoundAdd (k : Key) (d : Z) (v : Val)
| CallValue (k : Key) (args : list Val)
| CallDelete (k : Key)
| CallFlush
| CallExists (k : Key)
| CallCount
| CallSweep
| CallSetDataLoader (f : Loader)
| CallSetAddedItemCallback (f : CbId)
| CallAddAddedItemCallback (f : CbId)
| CallRemoveAddedItemCallbacks
| CallSetAboutToDeleteItemCallback (f : CbId)
| CallAddAboutToDeleteItemCallback (f : CbId)
| CallRemoveAboutToDeleteItemCallback.

Definition call (c : Call) : M unit :=
  match c with
  | CallAdd k d v => Add range_order k d v ;;; ret tt
  | CallNotFoundAdd k d v => NotFoundAdd range_order k d v ;;; ret tt
  | CallValue k args => Value range_order k args ;;; ret tt
  | CallDelete k => Delete k ;;; ret tt
  | CallFlush => Flush
  | CallExists k => Exists k ;;; ret tt
  | CallCount => Count ;;; ret tt
  | CallSweep => expirationCheck range_order
  | CallSetDataLoader f => SetDataLoader f
  | CallSetAddedItemCallback f => SetAddedItemCallback f
  | CallAddAddedItemCallback f => AddAddedItemCallback f
  | CallRemoveAddedItemCallbacks => RemoveAddedItemCallbacks
  | CallSetAboutToDeleteItemCallback f => SetAboutToDeleteItemCallback f
  | CallAddAboutToDeleteItemCallback f => AddAboutToDeleteItemCallback f
  | CallRemoveAboutToDeleteItemCallback => RemoveAboutToDeleteItemCallback
  end.

(** The arguments are of their Go types: a lifespan is an int64 duration,
    and so are the lifespans of the items a loader builds. *)
Definition call_typed (c : Call) : Prop :=
  match c with
  | CallAdd _ d _ | CallNotFoundAdd _ d _ => in_int64 d
  | CallSetDataLoader f =>
      ∀ k args it, f k args = Some it → in_int64 (lifeSpan it)
  | _ => True
  end.

Definition set_ticks (tk : list N) (w : World) : World :=
  {| heap := heap w; tbl := tbl w; clock := clock w; ticks := tk;
     trace := trace w |}.

(** The worlds a program reaches from a new table by calls that return,
    the environment deciding how much time passes before each reading of
    the clock. *)
Inductive reachable : World → Prop :=
| reach_new (table : string) (tk : list N) : reachable (Cache table tk)
| reach_call (w w' : World) (c : Call) :
    reachable w → call_typed c → call c w = Ok tt w' → reachable w'
| reach_time (w : World) (tk : list N) :
    reachable w → reachable (set_ticks tk w).

End Iteration.

(** The entries the loop of [Foreach] passes on, for the keys it is
    given. *)
Fixpoint entries_of (m : gmap Key loc) (keys : list Key)
  : list (Key * loc) :=
  match keys with
  | [] => []
  | k :: ks =>
      match m !! k with
      | Some p => (k, p) :: entries_of m ks
      | None => entries_of m ks
      end
  end.

(** No item was created after its last access. *)
Definition created_first (w : World) : Prop :=
  ∀ k it, item_of w k = Some it → createdOn it <= accessedOn it.

(** The interval is the duration of the pending timer: it is never
    negative, a timer is armed for it when it is positive, and none is
    pending when it is 0. *)
Definition steady (w : World) : Prop :=
  0 <= cleanupInterval (tbl w)
  ∧ (0 < cleanupInterval (tbl w) →
     armed (tbl w) (cleanupInterval (tbl w)))
  ∧ (cleanupInterval (tbl w) = 0 → idle (tbl w)).

(** No item with a positive lifespan is without a pending timer. *)
Definition watched (w : World) : Prop :=
  ∀ k it, item_of w k = Some it → 0 < lifeSpan it →
          0 < cleanupInterval (tbl w).

(** What every reachable world satisfies, the coverage by the timer
    apart. *)
Definition kept (w : World) : Prop :=
  well_formed w ∧ loader_ok (tbl w) ∧ created_first w ∧ steady w.

(** [sort.Sort] asks [Less] for a strict weak order. *)
Definition incomparable (a b : CacheItemPair) : Prop :=
  Less a b = false ∧ Less b a = false.

(** ** Stepping through the monad *)

Lemma bind_Ok {A B} (c : M A) (k : A → M B) w a w' :
  c w = Ok a w' → bind c k w = k a w'.
Proof. unfold bind. by intros ->. Qed.

Lemma bind_Fatal {A B} (c : M A) (k : A → M B) w msg w' :
  c w = Fatal msg w' → bind c k w = Fatal msg w'.
Proof. unfold bind. by intros ->. Qed.

Lemma stop_timer_items t : items (stop_timer t) = items t.
Proof. unfold stop_timer. by destruct (cleanupTimer t). Qed.

Lemma stop_timer_aboutToDeleteItem t :
  aboutToDeleteItem (stop_timer t) = aboutToDeleteItem t.
Proof. unfold stop_timer. by destruct (cleanupTimer t). Qed.

Lemma stop_timer_tmu t : tmu (stop_timer t) = tmu t.
Proof. unfold stop_timer. by destruct (cleanupTimer t). Qed.

Lemma stop_timer_idle t : idle (stop_timer t).
Proof.
  unfold idle, stop_timer. destruct (cleanupTimer t) eqn:E; simpl.
  - by intros tm [= <-].
  - by rewrite E.
Qed.

(** Reading an item under its read lock leaves the world as it was. *)
Lemma item_read w p it {A} (f : CacheItem → M A) :
  heap w !! p = Some it → imu it = unlocked →
  (item_RLock p ;;; x <- deref p ;; item_RUnlock p ;;; f x) w
  = f (set_imu {| writer := false; readers := 1 |} it) w.
Proof.
  intros Hp Hm.
  assert (Hlt : (p < length (heap w))%nat) by (eapply lookup_lt_Some; eauto).
  unfold item_RLock, item_RUnlock, item_op, bind, deref, store at 1.
  rewrite Hp, Hm. simpl.
  rewrite list_lookup_insert_eq by done. simpl.
  rewrite list_lookup_insert_eq by done. simpl.
  unfold store, set_heap; simpl.
  rewrite list_insert_insert_eq.
  replace (set_imu _ (set_imu _ it)) with it
    by (destruct it; simpl in *; by subst).
  rewrite list_insert_id by done.
  by destruct w.
Qed.

(** ** Delete and deleteInternal *)

Lemma deleteInternal_missing w k :
  items (tbl w) !! k = None →
  deleteInternal k w = Ok (None, Some ErrKeyNotFound) w.
Proof.
  intros Hk. unfold deleteInternal, bind, get_table. by rewrite Hk.
Qed.

(** On a key it finds, [deleteInternal] runs the table's about-to-delete
    callbacks on the item, then the item's expiry callbacks on the key,
    then removes the entry; its deferred [r.Unlock()] then meets a mutex
    that is read-locked, not write-locked. *)
Lemma deleteInternal_found w k p it :
  tmu (tbl w) = locked → items (tbl w) !! k = Some p →
  heap w !! p = Some it → imu it = unlocked →
  deleteInternal k w = Fatal unlock_msg (crash_world k p it w).
Proof.
  intros Ht Hk Hp Hm.
  assert (Hlt : (p < length (heap w))%nat) by (eapply lookup_lt_Some; eauto).
  destruct w as [h [m n its tm ci ld ai ad] c tk tr]; simpl in *; subst m.
  unfold deleteInternal, bind, get_table; simpl. rewrite Hk.
  unfold table_Unlock, table_Lock, table_op, emit, item_RLock, item_Unlock,
    item_op, bind, deref, map_delete, store; simpl.
  rewrite Hp, Hm; simpl.
  rewrite list_lookup_insert_eq by done. simpl.
  rewrite list_lookup_insert_eq by done. simpl.
  unfold crash_world; simpl. rewrite <- !app_assoc. reflexivity.
Qed.

Lemma Delete_spec w k :
  tmu (tbl w) = unlocked →
  Delete k w = Ok (None, Some ErrKeyNotFound) (after_Delete k w).
Proof.
  destruct w as [h [m n its tm ci ld ai ad] c tk tr]; simpl; intros ->.
  unfold Delete, bind, table_Lock, table_op, map_delete, deleteInternal,
    get_table, bind, ret; simpl.
  rewrite lookup_delete_eq. reflexivity.
Qed.

(** C1 (the code departs from the claim). [Delete] removes the entry
    itself before it calls [deleteInternal], which therefore never finds
    the key: for a key that is present, [Delete] returns no item and
    [ErrKeyNotFound], and the entry is gone. *)
Theorem Delete_present_reports_KeyNotFound (w : World) (k : Key) (p : loc) :
  tmu (tbl w) = unlocked →
  items (tbl w) !! k = Some p →
  ∃ w', Delete k w = Ok (None, Some ErrKeyNotFound) w'
        ∧ items (tbl w') !! k = None.
Proof.
  intros Ht _. exists (after_Delete k w). split; [by apply Delete_spec|].
  simpl. apply lookup_delete_eq.
Qed.

(** C3 (the code departs from the claim). [Delete] of a key that is
    present removes the entry without running any callback: neither the
    table's about-to-delete callbacks nor the item's expiry callbacks. The
    only thing the trace gains is the removal from the map. *)
Theorem Delete_runs_no_callback (w : World) (k : Key) (p : loc)
  (it : CacheItem) :
  tmu (tbl w) = unlocked →
  items (tbl w) !! k = Some p →
  heap w !! p = Some it →
  ∃ r w', Delete k w = Ok r w'
          ∧ items (tbl w') !! k = None
          ∧ trace w' = trace w ++ [EvMapDelete k].
Proof.
  intros Ht _ _. exists (None, Some ErrKeyNotFound), (after_Delete k w).
  split; [by apply Delete_spec|]. split; [apply lookup_delete_eq|done].
Qed.

(** ** The expiration sweep *)

Section Sweep.

Variable range_order : gmap Key loc → list Key.
Hypothesis range_order_perm :
  ∀ m : gmap Key loc, range_order m ≡ₚ (map_to_list m).*1.

Lemma range_order_elem (m : gmap Key loc) (k : Key) :
  k ∈ range_order m ↔ is_Some (m !! k).
Proof.
  rewrite range_order_perm, list_elem_of_fmap. split.
  - intros ([k' p] & -> & Hin). apply elem_of_map_to_list in Hin. eauto.
  - intros [p Hp]. exists (k, p). split; [done|].
    by apply elem_of_map_to_list.
Qed.

(** The loop either stops in the first item it finds due, or visits every
    key and leaves the world as it was. *)
Lemma sweep_spec now keys : ∀ acc w,
  tmu (tbl w) = locked → valid w →
  sweep now keys acc w =
    match first_due now (heap w) (items (tbl w)) keys with
    | Some (k, p, it) => Fatal unlock_msg (crash_world k p it w)
    | None => Ok (smallest_of now (heap w) (items (tbl w)) keys acc) w
    end.
Proof.
  induction keys as [|k ks IH]; intros acc w Ht Hv; [done|].
  simpl. unfold item_at.
  change (sweep now (k :: ks) acc w) with
    ((t <- get_table ;;
      match items t !! k with
      | None => sweep now ks acc
      | Some item =>
          item_RLock item ;;;
          it <- deref item ;;
          item_RUnlock item ;;;
          if lifeSpan it =? 0 then sweep now ks acc
          else if lifeSpan it <=? Sub now (accessedOn it) then
            deleteInternal k ;;;
            sweep now ks acc
          else
            let remaining := wrap64 (lifeSpan it - Sub now (accessedOn it)) in
            if (acc =? 0) || (remaining <? acc)
            then sweep now ks remaining
            else sweep now ks acc
      end) w).
  unfold bind at 1, get_table at 1.
  destruct (items (tbl w) !! k) as [p|] eqn:Hk; simpl; [|by apply IH].
  destruct (Hv _ _ Hk) as (it & Hp & Hm). rewrite Hp. simpl.
  rewrite (item_read w p it) by done. simpl.
  unfold due, next_smallest.
  destruct (lifeSpan it =? 0) eqn:E0; simpl; [by apply IH|].
  destruct (lifeSpan it <=? Sub now (accessedOn it)) eqn:E1; simpl.
  - erewrite bind_Fatal; [done|]. by apply deleteInternal_found.
  - destruct ((acc =? 0) || _); by apply IH.
Qed.

Lemma sweep_start_valid w : valid w → valid (sweep_start w).
Proof.
  intros Hv k p. simpl. rewrite stop_timer_items. simpl. apply Hv.
Qed.

Lemma expirationCheck_spec w :
  quiescent w →
  expirationCheck range_order w =
    match first_due (now_of w) (heap w) (items (tbl w))
            (range_order (items (tbl w))) with
    | Some (k, p, it) =>
        Fatal unlock_msg (crash_world k p it (sweep_start w))
    | None =>
        Ok tt (sweep_end
                 (smallest_of (now_of w) (heap w) (items (tbl w))
                    (range_order (items (tbl w))) 0)
                 (sweep_start w))
    end.
Proof.
  intros [Ht Hv].
  assert (Hs : ∀ {A} (f : Z → M A),
             (table_Lock ;;; modify_table stop_timer ;;;
              now <- time_Now ;; f now) w = f (now_of w) (sweep_start w)).
  { intros A f. unfold bind, table_Lock, table_op, modify_table, time_Now.
    rewrite Ht. simpl. unfold sweep_start, now_of, set_tbl. simpl.
    destruct (ticks w); simpl; reflexivity. }
  unfold expirationCheck. rewrite Hs.
  unfold bind at 1, get_table at 1. unfold bind at 1.
  assert (Hi : items (tbl (sweep_start w)) = items (tbl w))
    by (simpl; by rewrite stop_timer_items).
  rewrite sweep_spec;
    [|simpl; by rewrite stop_timer_tmu|by apply sweep_start_valid].
  rewrite Hi. change (heap (sweep_start w)) with (heap w).
  destruct (first_due _ _ _ _) as [[[k p] it]|]; [done|].
  set (d := smallest_of _ _ _ _ _).
  unfold bind, modify_table, table_Unlock, table_op, sweep_end, ret. simpl.
  destruct (0 <? d); simpl; rewrite stop_timer_tmu; reflexivity.
Qed.

Lemma first_due_Some now h m keys k p it :
  first_due now h m keys = Some (k, p, it) →
  k ∈ keys ∧ m !! k = Some p ∧ h !! p = Some it ∧ due now it = true.
Proof.
  induction keys as [|k0 ks IH]; simpl; [done|].
  destruct (m !! k0) as [p0|] eqn:Hk.
  - destruct (h !! p0) as [it0|] eqn:Hp.
    + destruct (due now it0) eqn:Hd.
      * intros [= -> -> ->]. split; [left|done].
      * intros H. destruct (IH H) as (? & ? & ? & ?). split; [by right|done].
    + intros H. destruct (IH H) as (? & ? & ? & ?). split; [by right|done].
  - intros H. destruct (IH H) as (? & ? & ? & ?). split; [by right|done].
Qed.

Lemma first_due_None now h m keys :
  first_due now h m keys = None ↔
  ∀ k it, k ∈ keys → item_at h m k = Some it → due now it = false.
Proof.
  unfold item_at. induction keys as [|k0 ks IH]; simpl.
  - split; [|done]. intros _ k it Hin. by apply elem_of_nil in Hin.
  - split.
    + intros H k it Hin Hit. apply elem_of_cons in Hin as [->|Hin].
      * destruct (m !! k0) as [p0|]; simpl in Hit; [|done].
        rewrite Hit in H. by destruct (due now it).
      * destruct (m !! k0) as [p0|]; [destruct (h !! p0) as [it0|]|];
          try (by eapply IH); destruct (due now it0); [done|by eapply IH].
    + intros H.
      assert (Hks : first_due now h m ks = None).
      { apply IH. intros k it Hin. apply H. by right. }
      destruct (m !! k0) as [p0|] eqn:Hk; [|done].
      destruct (h !! p0) as [it0|] eqn:Hp; [|done].
      rewrite (H k0 it0); [done|by left|]. by rewrite Hk.
Qed.

Lemma calm_first_due w :
  calm w →
  first_due (now_of w) (heap w) (items (tbl w))
    (range_order (items (tbl w))) = None.
Proof. intros Hc. apply first_due_None. intros k it _. apply Hc. Qed.

Lemma item_of_in_range w k it :
  item_of w k = Some it → k ∈ range_order (items (tbl w)).
Proof.
  unfold item_of, item_at. intros H. apply range_order_elem.
  destruct (items (tbl w) !! k); [eauto|done].
Qed.

Lemma due_first_due w k it :
  item_of w k = Some it → due (now_of w) it = true →
  ∃ k' p' it',
    first_due (now_of w) (heap w) (items (tbl w))
      (range_order (items (tbl w))) = Some (k', p', it').
Proof.
  intros Hit Hd.
  destruct (first_due _ _ _ _) as [[[k' p'] it']|] eqn:E; [eauto|].
  rewrite first_due_None in E.
  rewrite (E k it) in Hd; [done| |done]. by eapply item_of_in_range.
Qed.

(** C5 (the code departs from the claim). A sweep that meets an item due
    for removal does not complete: [deleteInternal] runs the callbacks,
    removes that one entry and then fails in its deferred [r.Unlock()],
    which is paired with [r.RLock()]. Exactly one entry, itself due, is
    gone when the process stops; any other due item is still in the map. *)
Theorem expirationCheck_stops_at_first_due_item (w : World) (k : Key)
  (it : CacheItem) :
  quiescent w →
  item_of w k = Some it →
  due (now_of w) it = true →
  ∃ k' it' w',
    expirationCheck range_order w = Fatal unlock_msg w'
    ∧ item_of w k' = Some it' ∧ due (now_of w) it' = true
    ∧ items (tbl w') = delete k' (items (tbl w)).
Proof.
  intros Hq Hit Hd.
  destruct (due_first_due w k it Hit Hd) as (k' & p' & it' & E).
  rewrite (expirationCheck_spec w Hq), E.
  apply first_due_Some in E as (_ & Hk & Hp & Hd').
  exists k', it', (crash_world k' p' it' (sweep_start w)).
  split; [done|]. split; [|split; [done|]].
  - unfold item_of, item_at. by rewrite Hk.
  - simpl. by rewrite stop_timer_items.
Qed.

(** An item whose lifespan is 0 is never removed by a sweep, however the
    sweep ends. *)
Lemma expirationCheck_keeps_lifespan_0 (w : World) (k : Key) (it : CacheItem) :
  quiescent w →
  item_of w k = Some it →
  lifeSpan it = 0 →
  items (tbl (world_of (expirationCheck range_order w))) !! k
  = items (tbl w) !! k.
Proof.
  intros Hq Hit H0. rewrite (expirationCheck_spec w Hq).
  destruct (first_due _ _ _ _) as [[[k' p'] it']|] eqn:E; simpl.
  - rewrite stop_timer_items. simpl.
    apply first_due_Some in E as (_ & Hk & Hp & Hd).
    destruct (decide (k' = k)) as [->|Hne]; [|by rewrite lookup_delete_ne].
    unfold item_of, item_at in Hit. rewrite Hk in Hit. simpl in Hit.
    rewrite Hp in Hit. injection Hit as ->.
    unfold due in Hd. rewrite H0 in Hd. done.
  - destruct (0 <? _); simpl; by rewrite stop_timer_items.
Qed.

(** For an item that is not due, the duration the code computes in int64
    is the remaining time-to-live, and it is positive. *)
Lemma code_remaining now it :
  in_int64 (lifeSpan it) → accessedOn it <= now →
  lifeSpan it ≠ 0 → due now it = false →
  wrap64 (lifeSpan it - Sub now (accessedOn it)) = remaining now it
  ∧ 0 < remaining now it.
Proof.
  unfold in_int64, due, remaining, Sub, wrap64, min_int64, max_int64.
  intros [Hlo Hhi] Ha Hn Hd.
  apply andb_false_iff in Hd as [Hd|Hd].
  { apply negb_false_iff, Z.eqb_eq in Hd. done. }
  apply Z.leb_gt in Hd.
  destruct (now - accessedOn it <? - 2 ^ 63) eqn:E1; [lia|].
  destruct (2 ^ 63 - 1 <? now - accessedOn it) eqn:E2; [lia|].
  split; [|lia].
  rewrite Z.mod_small by lia. lia.
Qed.

Lemma smallest_of_min now h m keys : ∀ acc,
  0 <= acc →
  (∀ k it, k ∈ keys → item_at h m k = Some it → lifeSpan it ≠ 0 →
     wrap64 (lifeSpan it - Sub now (accessedOn it)) = remaining now it
     ∧ 0 < remaining now it) →
  let r := smallest_of now h m keys acc in
  (r = acc ∨ ∃ k it, k ∈ keys ∧ item_at h m k = Some it
                     ∧ lifeSpan it ≠ 0 ∧ r = remaining now it)
  ∧ (∀ k it, k ∈ keys → item_at h m k = Some it → lifeSpan it ≠ 0 →
       0 < r <= remaining now it)
  ∧ (0 < acc → 0 < r <= acc).
Proof.
  induction keys as [|k0 ks IH]; intros acc Hacc Hrem; simpl.
  { split; [by left|]. split; [|lia].
    intros k it Hin. by apply elem_of_nil in Hin. }
  assert (Hks : ∀ k it, k ∈ ks → item_at h m k = Some it → lifeSpan it ≠ 0 →
            wrap64 (lifeSpan it - Sub now (accessedOn it)) = remaining now it
            ∧ 0 < remaining now it).
  { intros k it Hin. apply Hrem. by right. }
  destruct (item_at h m k0) as [it0|] eqn:H0.
  - set (acc' := next_smallest now it0 acc).
    assert (Hacc' : 0 <= acc'
                    ∧ (acc' = acc ∨ (lifeSpan it0 ≠ 0
                                     ∧ acc' = remaining now it0))
                    ∧ (lifeSpan it0 ≠ 0 → 0 < acc' <= remaining now it0)
                    ∧ (0 < acc → 0 < acc' <= acc)).
    { unfold acc', next_smallest.
      destruct (lifeSpan it0 =? 0) eqn:E0.
      - apply Z.eqb_eq in E0. repeat split; first [lia | by left].
      - apply Z.eqb_neq in E0.
        destruct (Hrem k0 it0) as [-> Hpos]; [by left|done|done|].
        destruct (acc =? 0) eqn:Ea; simpl.
        + apply Z.eqb_eq in Ea. repeat split; first [lia | by right].
        + apply Z.eqb_neq in Ea.
          destruct (remaining now it0 <? acc) eqn:El.
          * apply Z.ltb_lt in El. repeat split; first [lia | by right].
          * apply Z.ltb_ge in El. repeat split; first [lia | by left]. }
    destruct Hacc' as (Hnn & Hor & Hle & Hpos).
    destruct (IH acc' Hnn Hks) as (IHa & IHb & IHc).
    split; [|split].
    + destruct IHa as [->|(k & it & Hin & Hit & Hn & Hr)].
      * destruct Hor as [->|[Hn ->]]; [by left|].
        right. exists k0, it0. split; [by left|done].
      * right. exists k, it. split; [by right|done].
    + intros k it Hin Hit Hn. apply elem_of_cons in Hin as [->|Hin].
      * rewrite H0 in Hit. injection Hit as <-.
        specialize (Hle Hn). specialize (IHc ltac:(lia)). lia.
      * by apply (IHb k it).
    + intros Ha. specialize (Hpos Ha). specialize (IHc ltac:(lia)). lia.
  - destruct (IH acc Hacc Hks) as (IHa & IHb & IHc).
    split; [|split; [|done]].
    + destruct IHa as [->|(k & it & Hin & Hit & Hn & Hr)]; [by left|].
      right. exists k, it. split; [by right|done].
    + intros k it Hin Hit Hn. apply elem_of_cons in Hin as [->|Hin].
      * by rewrite H0 in Hit.
      * by apply (IHb k it).
Qed.

Lemma now_of_ge w : clock w <= now_of w.
Proof. unfold now_of. destruct (ticks w); lia. Qed.

(** C7. A sweep over a table in which no item is due returns, and
    whenever a sweep returns: no entry was removed, [cleanupInterval] is
    the minimum remaining time-to-live over the items with a nonzero
    lifespan at the time the sweep read the clock (0 when there is no
    such item), and a timer is armed for that duration exactly when it is
    positive; otherwise none is pending. *)
Theorem expirationCheck_interval_is_min_remaining (w : World) :
  quiescent w →
  timely w →
  (calm w → ∃ w', expirationCheck range_order w = Ok tt w')
  ∧ ∀ w', expirationCheck range_order w = Ok tt w' →
      items (tbl w') = items (tbl w)
      ∧ heap w' = heap w
      ∧ clock w' = now_of w
      ∧ min_remaining (clock w') w' (cleanupInterval (tbl w'))
      ∧ (armed (tbl w') (cleanupInterval (tbl w'))
         ↔ 0 < cleanupInterval (tbl w'))
      ∧ (cleanupInterval (tbl w') <= 0 → idle (tbl w')).
Proof.
  intros Hq Ht. rewrite (expirationCheck_spec w Hq). split.
  { intros Hc. rewrite (calm_first_due w Hc). eauto. }
  intros w'.
  destruct (first_due _ _ _ _) as [[[k' p'] it']|] eqn:E; [done|].
  set (d := smallest_of _ _ _ _ _). intros [= <-].
  assert (Hi : items (tbl (sweep_end d (sweep_start w))) = items (tbl w)).
  { simpl. destruct (0 <? d); simpl; by rewrite stop_timer_items. }
  assert (Hd : cleanupInterval (tbl (sweep_end d (sweep_start w))) = d).
  { simpl. by destruct (0 <? d). }
  rewrite Hd. split; [done|]. split; [done|]. split; [done|].
  rewrite first_due_None in E.
  assert (Hrem : ∀ k it, k ∈ range_order (items (tbl w)) →
            item_at (heap w) (items (tbl w)) k = Some it → lifeSpan it ≠ 0 →
            wrap64 (lifeSpan it - Sub (now_of w) (accessedOn it))
            = remaining (now_of w) it ∧ 0 < remaining (now_of w) it).
  { intros k it Hin Hit Hn. destruct (Ht k it Hit) as [H64 Hacc].
    apply code_remaining; [done| |done|by eapply E].
    pose proof (now_of_ge w). lia. }
  destruct (smallest_of_min (now_of w) (heap w) (items (tbl w))
              (range_order (items (tbl w))) 0 ltac:(lia) Hrem)
    as (Ha & Hb & _).
  fold d in Ha, Hb.
  split; [|split].
  - unfold min_remaining, item_of. rewrite Hi. simpl.
    destruct Ha as [Hz|(k & it & Hin & Hit & Hn & Hr)].
    + left. split; [done|]. intros k it Hit.
      destruct (decide (lifeSpan it = 0)) as [|Hn]; [done|].
      assert (Hin : k ∈ range_order (items (tbl w)))
        by (by eapply item_of_in_range).
      specialize (Hb k it Hin Hit Hn). lia.
    + right. split; [by exists k, it|].
      intros k2 it2 Hit2 Hn2.
      assert (Hin2 : k2 ∈ range_order (items (tbl w)))
        by (by eapply item_of_in_range).
      specialize (Hb k2 it2 Hin2 Hit2 Hn2). lia.
  - unfold armed. simpl. destruct (0 <? d) eqn:E0.
    + apply Z.ltb_lt in E0. simpl. split; [done|]. by intros _.
    + apply Z.ltb_ge in E0. simpl. split; [|lia].
      intros Harm. pose proof (stop_timer_idle (set_tmu locked (tbl w))) as Hidle.
      specialize (Hidle _ Harm). done.
  - intros Hle. unfold idle. simpl. destruct (0 <? d) eqn:E0.
    + apply Z.ltb_lt in E0. lia.
    + simpl. apply (stop_timer_idle (set_tmu locked (tbl w))).
Qed.

End Sweep.

(** What a sweep that removed nothing leaves untouched. *)
Lemma sweep_end_frame (d : Z) (w : World) :
  let w' := sweep_end d (sweep_start w) in
  heap w' = heap w
  ∧ items (tbl w') = items (tbl w)
  ∧ trace w' = trace w
  ∧ tmu (tbl w') = unlocked
  ∧ loadData (tbl w') = loadData (tbl w)
  ∧ addItem (tbl w') = addItem (tbl w)
  ∧ aboutToDeleteItem (tbl w') = aboutToDeleteItem (tbl w)
  ∧ name (tbl w') = name (tbl w)
  ∧ cleanupInterval (tbl w') = d
  ∧ clock w' = now_of w
  ∧ ticks w' = tail (ticks w).
Proof.
  simpl. unfold stop_timer.
  destruct (0 <? d); destruct (cleanupTimer (tbl w)) eqn:E; simpl;
    rewrite ?E; simpl; done.
Qed.

(** ** Add, NotFoundAdd, Value, Flush *)

Section Operations.

Variable range_order : gmap Key loc → list Key.
Hypothesis range_order_perm :
  ∀ m : gmap Key loc, range_order m ≡ₚ (map_to_list m).*1.

Lemma Add_spec (w : World) (k : Key) (d : Z) (v : Val) :
  tmu (tbl w) = unlocked →
  Add range_order k d v w
  = if sweep_due d (cleanupInterval (tbl w))
    then (expirationCheck range_order ;;; ret (length (heap w)))
           (after_add k d v w)
    else Ok (length (heap w)) (after_add k d v w).
Proof.
  destruct w as [h [m n its tm ci ld ai ad] c tk tr]; simpl; intros ->.
  unfold Add, NewCacheItem, addInternal, bind, time_Now, alloc, table_Lock,
    table_op, deref, map_store, get_table, table_Unlock, emit, ret. simpl.
  destruct tk as [|t tk]; simpl;
    rewrite lookup_app_r, Nat.sub_diag by done; simpl;
    unfold after_add, now_of, new_item; simpl; rewrite <- app_assoc; simpl;
    by destruct (sweep_due d ci).
Qed.

Lemma NotFoundAdd_absent_spec (w : World) (k : Key) (d : Z) (v : Val) :
  tmu (tbl w) = unlocked →
  items (tbl w) !! k = None →
  NotFoundAdd range_order k d v w
  = if sweep_due d (cleanupInterval (tbl w))
    then (expirationCheck range_order ;;; ret true) (after_add k d v w)
    else Ok true (after_add k d v w).
Proof.
  destruct w as [h [m n its tm ci ld ai ad] c tk tr]; simpl; intros -> Hk.
  unfold NotFoundAdd, bind, table_Lock, table_op, get_table. simpl.
  rewrite Hk.
  unfold NewCacheItem, addInternal, bind, time_Now, alloc, table_Lock,
    table_op, deref, map_store, get_table, table_Unlock, emit, ret. simpl.
  destruct tk as [|t tk]; simpl;
    rewrite lookup_app_r, Nat.sub_diag by done; simpl;
    unfold after_add, now_of, new_item; simpl; rewrite <- app_assoc; simpl;
    by destruct (sweep_due d ci).
Qed.

Lemma NotFoundAdd_present_spec (w : World) (k : Key) (d : Z) (v : Val)
  (p : loc) :
  tmu (tbl w) = unlocked →
  items (tbl w) !! k = Some p →
  NotFoundAdd range_order k d v w = Ok false w.
Proof.
  destruct w as [h [m n its tm ci ld ai ad] c tk tr]; simpl; intros -> Hk.
  unfold NotFoundAdd, bind, table_Lock, table_Unlock, table_op, get_table.
  simpl. by rewrite Hk.
Qed.

Lemma after_add_quiescent (w : World) (k : Key) (d : Z) (v : Val) :
  quiescent w → quiescent (after_add k d v w).
Proof.
  intros [Ht Hv]. split; [done|]. intros k' p. simpl.
  destruct (decide (k = k')) as [->|Hne].
  - rewrite lookup_insert_eq. intros [= <-].
    exists (new_item k' d v (now_of w)).
    by rewrite lookup_app_r, Nat.sub_diag.
  - rewrite lookup_insert_ne by done. intros Hk.
    destruct (Hv _ _ Hk) as (it & Hp & Hm). exists it.
    split; [|done]. by apply lookup_app_l_Some.
Qed.

(** [Add] returns as soon as the expiration check it may trigger finds no
    item due; the world then differs from [after_add] by the timer, the
    interval and the clock reading of the check only. *)
Lemma Add_returns (w : World) (k : Key) (d : Z) (v : Val) :
  quiescent w →
  (sweep_due d (cleanupInterval (tbl w)) = true → calm (after_add k d v w)) →
  ∃ w', Add range_order k d v w = Ok (length (heap w)) w'
        ∧ heap w' = heap (after_add k d v w)
        ∧ items (tbl w') = items (tbl (after_add k d v w))
        ∧ trace w' = trace (after_add k d v w)
        ∧ tmu (tbl w') = unlocked
        ∧ loadData (tbl w') = loadData (tbl w)
        ∧ addItem (tbl w') = addItem (tbl w)
        ∧ aboutToDeleteItem (tbl w') = aboutToDeleteItem (tbl w).
Proof.
  intros Hq Hc. rewrite Add_spec by apply Hq.
  destruct (sweep_due d (cleanupInterval (tbl w))) eqn:E.
  - pose proof (after_add_quiescent w k d v Hq) as Hq'.
    unfold bind. rewrite (expirationCheck_spec range_order _ Hq').
    rewrite (calm_first_due range_order _ (Hc eq_refl)).
    eexists. split; [reflexivity|].
    destruct (sweep_end_frame
                (smallest_of (now_of (after_add k d v w))
                   (heap (after_add k d v w))
                   (items (tbl (after_add k d v w)))
                   (range_order (items (tbl (after_add k d v w)))) 0)
                (after_add k d v w))
      as (-> & -> & -> & -> & -> & -> & -> & _). done.
  - eexists. split; [reflexivity|]. simpl. destruct Hq as [-> _]. done.
Qed.

Lemma Value_hit (w : World) (k : Key) (args : list Val) (p : loc)
  (it : CacheItem) :
  tmu (tbl w) = unlocked →
  items (tbl w) !! k = Some p →
  heap w !! p = Some it →
  imu it = unlocked →
  Value range_order k args w = Ok (Some p, None) (after_hit p it w).
Proof.
  intros Ht Hk Hp Hm.
  assert (Hlt : (p < length (heap w))%nat) by (eapply lookup_lt_Some; eauto).
  destruct w as [h [m n its tm ci ld ai ad] c tk tr]; simpl in *; subst m.
  unfold Value, bind, table_RLock, table_RUnlock, table_op, get_table.
  simpl. rewrite Hk.
  unfold KeepAlive, bind, item_Lock, item_Unlock, item_op, bind, deref,
    store, time_Now, ret. simpl.
  rewrite Hp, Hm. simpl.
  destruct tk as [|t tk]; simpl;
    rewrite !list_lookup_insert_eq by (rewrite ?length_insert; done); simpl;
    rewrite !list_lookup_insert_eq by (rewrite ?length_insert; done); simpl;
    unfold after_hit, now_of, kept_alive, set_heap, set_imu; simpl;
    rewrite !list_insert_insert_eq, Hm; reflexivity.
Qed.

Lemma after_hit_quiescent (w : World) (k : Key) (p : loc) (it : CacheItem) :
  quiescent w → heap w !! p = Some it → imu it = unlocked →
  quiescent (after_hit p it w).
Proof.
  intros [Ht Hv] Hp Hm. split; [done|]. intros k' p' Hk'. simpl in *.
  assert (Hlt : (p < length (heap w))%nat) by (eapply lookup_lt_Some; eauto).
  destruct (decide (p = p')) as [<-|Hne].
  - exists (kept_alive (now_of w) it).
    by rewrite list_lookup_insert_eq.
  - rewrite list_lookup_insert_ne by done. by eapply Hv.
Qed.

Lemma wrap64_small (z : Z) : in_int64 z → wrap64 z = z.
Proof.
  unfold in_int64, wrap64, min_int64, max_int64. intros H.
  rewrite Z.mod_small by lia. lia.
Qed.

Lemma Value_hit_times (k : Key) (args : list Val) (p : loc) (n : nat) :
  ∀ (w : World) (it : CacheItem),
    quiescent w →
    items (tbl w) !! k = Some p →
    heap w !! p = Some it →
    0 <= accessCount it →
    accessCount it + Z.of_nat n <= max_int64 →
    ∃ w' it', times n (Value range_order k args) w = Ok tt w'
              ∧ quiescent w'
              ∧ items (tbl w') = items (tbl w)
              ∧ heap w' !! p = Some it'
              ∧ accessCount it' = accessCount it + Z.of_nat n.
Proof.
  induction n as [|n IH]; intros w it Hq Hk Hp H0 Hmax.
  { exists w, it. simpl. unfold ret. repeat split; try done; try apply Hq.
    lia. }
  destruct (proj2 Hq _ _ Hk) as (it0 & Hp0 & Hm).
  assert (it0 = it) as -> by congruence.
  assert (Hlt : (p < length (heap w))%nat) by (eapply lookup_lt_Some; eauto).
  change (times (S n) (Value range_order k args))
    with (Value range_order k args ;;; times n (Value range_order k args)).
  rewrite (bind_Ok _ _ _ _ _ (Value_hit w k args p it (proj1 Hq) Hk Hp Hm)).
  destruct (IH (after_hit p it w) (kept_alive (now_of w) it))
    as (w' & it' & Hrun & Hq' & Hi' & Hp' & Hc').
  - by eapply after_hit_quiescent.
  - done.
  - simpl. by rewrite list_lookup_insert_eq.
  - simpl. rewrite wrap64_small; unfold in_int64, min_int64, max_int64 in *;
      lia.
  - simpl. rewrite wrap64_small; unfold in_int64, min_int64, max_int64 in *;
      lia.
  - exists w', it'. split; [done|]. split; [done|]. split; [done|].
    split; [done|]. rewrite Hc'. simpl.
    rewrite wrap64_small; unfold in_int64, min_int64, max_int64 in *; lia.
Qed.

(** C4. On a key that is present, [Value] returns the key's item, having
    incremented its access count by exactly 1 (the count is an int64 and
    has not reached its maximum) and set its last-access time to the
    clock's reading, which is not before the previous one; value, lifespan
    and creation time are untouched. From an access count of 0, [n] such
    calls in a row leave the access count at [n]. *)
Theorem Value_hit_refreshes_access_metadata (w : World) (k : Key)
  (args : list Val) (p : loc) (it : CacheItem) :
  quiescent w →
  items (tbl w) !! k = Some p →
  heap w !! p = Some it →
  min_int64 <= accessCount it < max_int64 →
  accessedOn it <= clock w →
  (∃ w' it',
      Value range_order k args w = Ok (Some p, None) w'
      ∧ items (tbl w') !! k = Some p
      ∧ heap w' !! p = Some it'
      ∧ accessCount it' = accessCount it + 1
      ∧ accessedOn it' = clock w'
      ∧ accessedOn it <= accessedOn it'
      ∧ value it' = value it
      ∧ lifeSpan it' = lifeSpan it
      ∧ createdOn it' = createdOn it)
  ∧ (accessCount it = 0 →
     ∀ n : nat, Z.of_nat n <= max_int64 →
       ∃ w' it',
         times n (Value range_order k args) w = Ok tt w'
         ∧ items (tbl w') !! k = Some p
         ∧ heap w' !! p = Some it'
         ∧ accessCount it' = Z.of_nat n).
Proof.
  intros Hq Hk Hp Hc Ha. split.
  - destruct (proj2 Hq _ _ Hk) as (it0 & Hp0 & Hm).
    assert (it0 = it) as -> by congruence.
    assert (Hlt : (p < length (heap w))%nat)
      by (eapply lookup_lt_Some; eauto).
    exists (after_hit p it w), (kept_alive (now_of w) it).
    split; [by apply Value_hit; [apply Hq|..]|].
    split; [done|]. split; [simpl; by rewrite list_lookup_insert_eq|].
    simpl. split.
    { rewrite wrap64_small; unfold in_int64, min_int64, max_int64 in *;
        lia. }
    split; [done|]. split; [|done].
    pose proof (now_of_ge w). lia.
  - intros H0 n Hn.
    destruct (Value_hit_times k args p n w it Hq Hk Hp) as
      (w' & it' & Hrun & _ & Hi & Hp' & Hc'); [lia|lia|].
    exists w', it'. rewrite Hi. split; [done|]. split; [done|].
    split; [done|]. lia.
Qed.




Lemma crash_trace_not_about (w : World) (k : Key) (p p_old : loc)
  (it : CacheItem) (e : Event) :
  p ≠ p_old →
  e ∈ map (λ cb, EvAboutToDelete cb p) (aboutToDeleteItem (tbl w))
      ++ map (λ cb, EvAboutToExpire p cb k) (aboutToExpire it)
      ++ [EvMapDelete k] →
  ¬ deletion_callback_of p_old e ∧ ∀ cb r, e ≠ EvAdded cb r.
Proof.
  intros Hne Hin.
  rewrite !elem_of_app, list_elem_of_singleton in Hin.
  destruct Hin as [Hin|[Hin| ->]].
  - apply list_elem_of_In, in_map_iff in Hin as (cb & <- & _). simpl.
    split; [by intros ->|done].
  - apply list_elem_of_In, in_map_iff in Hin as (cb & <- & _). simpl.
    split; [by intros ->|done].
  - simpl. split; [by intros []|done].
Qed.

(** C9 (amended). [Add] on a key that is present stores a freshly built
    item under the key and runs the on-add callbacks, in order, each on
    the new item. No about-to-delete callback is run on the displaced
    item and none of its expiry callbacks is run, whatever follows; the
    only callbacks that can follow are those of the expiration check
    that [Add] may trigger. When that check is not triggered or finds no
    item due, the on-add callbacks are the only ones that run, and [Add]
    returns the new item, which the key now leads to. *)
Theorem Add_replaces_without_deletion_callbacks (w : World) (k : Key)
  (d : Z) (v : Val) (p_old : loc) :
  quiescent w →
  items (tbl w) !! k = Some p_old →
  (∀ k', items (tbl w) !! k' = Some p_old → k' = k) →
  ∃ rest,
    trace (world_of (Add range_order k d v w))
    = trace w
      ++ EvMapStore k (length (heap w))
         :: map (λ cb, EvAdded cb (length (heap w))) (addItem (tbl w))
      ++ rest
    ∧ length (heap w) ≠ p_old
    ∧ (∀ e, e ∈ rest →
            ¬ deletion_callback_of p_old e ∧ ∀ cb r, e ≠ EvAdded cb r)
    ∧ ((sweep_due d (cleanupInterval (tbl w)) = true →
        calm (after_add k d v w)) →
       rest = []
       ∧ ∃ w', Add range_order k d v w = Ok (length (heap w)) w'
               ∧ items (tbl w') !! k = Some (length (heap w))).
Proof.
  intros Hq Hk Halias.
  assert (Hfresh : length (heap w) ≠ p_old).
  { destruct (proj2 Hq _ _ Hk) as (it & Hp & _).
    apply lookup_lt_Some in Hp. lia. }
  pose proof (after_add_quiescent w k d v Hq) as Hq'.
  rewrite Add_spec by apply Hq.
  destruct (sweep_due d (cleanupInterval (tbl w))) eqn:E.
  - unfold bind. rewrite (expirationCheck_spec range_order _ Hq').
    destruct (first_due _ _ _ _) as [[[k' p'] it']|] eqn:Ef.
    + apply first_due_Some in Ef as (_ & Hk' & Hp' & Hd').
      exists (map (λ cb, EvAboutToDelete cb p') (aboutToDeleteItem (tbl w))
              ++ map (λ cb, EvAboutToExpire p' cb k') (aboutToExpire it')
              ++ [EvMapDelete k']).
      split.
      { simpl. rewrite stop_timer_aboutToDeleteItem. simpl.
        rewrite <- app_assoc. reflexivity. }
      split; [done|]. split.
      * intros e. apply (crash_trace_not_about w).
        simpl in Hk'. destruct (decide (k = k')) as [<-|Hne].
        -- rewrite lookup_insert_eq in Hk'. by injection Hk' as <-.
        -- rewrite lookup_insert_ne in Hk' by done.
           intros ->. by apply Hne, eq_sym, Halias.
      * intros Hc. specialize (Hc eq_refl k' it').
        rewrite Hc in Hd'; [done|]. unfold item_of, item_at.
        by rewrite Hk'.
    + exists []. rewrite app_nil_r.
      destruct (sweep_end_frame
                  (smallest_of (now_of (after_add k d v w))
                     (heap (after_add k d v w))
                     (items (tbl (after_add k d v w)))
                     (range_order (items (tbl (after_add k d v w)))) 0)
                  (after_add k d v w))
        as (_ & Hi & Htr & _).
      split; [exact Htr|]. split; [done|].
      split; [intros e He; by apply elem_of_nil in He|].
      intros _. split; [done|]. eexists. split; [reflexivity|].
      rewrite Hi. simpl. apply lookup_insert_eq.
  - exists []. rewrite app_nil_r. split; [done|]. split; [done|].
    split; [intros e He; by apply elem_of_nil in He|].
    intros _. split; [done|]. eexists. split; [reflexivity|].
    simpl. apply lookup_insert_eq.
Qed.

Lemma Value_miss_load_spec (w : World) (k : Key) (args : list Val)
  (load : Loader) (loaded : CacheItem) :
  tmu (tbl w) = unlocked →
  items (tbl w) !! k = None →
  loadData (tbl w) = Some load →
  load k [VSlice args] = Some loaded →
  Value range_order k args w
  = (Add range_order k (lifeSpan loaded) (VItem (length (heap w))) ;;;
     ret (Some (length (heap w)), None)) (after_load k args loaded w).
Proof.
  destruct w as [h [m n its tm ci ld ai ad] c tk tr]; simpl.
  intros -> Hk -> Hl.
  unfold Value. unfold bind at 1, table_RLock at 1, table_op at 1. simpl.
  unfold bind at 1, get_table at 1. simpl.
  unfold bind at 1, table_RUnlock at 1, table_op at 1. simpl.
  rewrite Hk. unfold bind at 1, emit at 1. simpl. rewrite Hl.
  unfold bind at 1, alloc at 1. simpl.
  unfold bind at 1, deref at 1. simpl.
  rewrite lookup_app_r, Nat.sub_diag by done. simpl. reflexivity.
Qed.

Lemma after_load_quiescent (w : World) (k : Key) (args : list Val)
  (loaded : CacheItem) :
  quiescent w → quiescent (after_load k args loaded w).
Proof.
  intros [Ht Hv]. split; [done|]. intros k' p Hk'. simpl in *.
  destruct (Hv _ _ Hk') as (it & Hp & Hm). exists it.
  split; [|done]. by apply lookup_app_l_Some.
Qed.

Lemma Value_miss_no_loader (w : World) (k : Key) (args : list Val) :
  tmu (tbl w) = unlocked →
  items (tbl w) !! k = None →
  loadData (tbl w) = None →
  Value range_order k args w = Ok (None, Some ErrKeyNotFound) w.
Proof.
  destruct w as [h [m n its tm ci ld ai ad] c tk tr]; simpl.
  intros -> Hk ->.
  unfold Value, bind, table_RLock, table_RUnlock, table_op, get_table.
  simpl. by rewrite Hk.
Qed.

Lemma Value_miss_not_loadable (w : World) (k : Key) (args : list Val)
  (load : Loader) :
  tmu (tbl w) = unlocked →
  items (tbl w) !! k = None →
  loadData (tbl w) = Some load →
  load k [VSlice args] = None →
  Value range_order k args w
  = Ok (None, Some ErrKeyNotFoundOrLoadable)
      {| heap := heap w; tbl := tbl w; clock := clock w; ticks := ticks w;
         trace := trace w ++ [EvLoad k [VSlice args]] |}.
Proof.
  destruct w as [h [m n its tm ci ld ai ad] c tk tr]; simpl.
  intros -> Hk -> Hnone.
  unfold Value, bind, table_RLock, table_RUnlock, table_op, get_table,
    emit. simpl. by rewrite Hk, Hnone.
Qed.


Lemma Count_spec (w : World) :
  tmu (tbl w) = unlocked →
  Count w = Ok (Z.of_nat (size (items (tbl w)))) w.
Proof.
  destruct w as [h [m n its tm ci ld ai ad] c tk tr]; simpl; intros ->.
  reflexivity.
Qed.

Lemma Exists_spec (w : World) (k : Key) :
  tmu (tbl w) = unlocked →
  Exists k w = Ok (bool_decide (is_Some (items (tbl w) !! k))) w.
Proof.
  destruct w as [h [m n its tm ci ld ai ad] c tk tr]; simpl; intros ->.
  reflexivity.
Qed.

Lemma Flush_spec (w : World) :
  tmu (tbl w) = unlocked → Flush w = Ok tt (after_Flush w).
Proof.
  destruct w as [h [m n its tm ci ld ai ad] c tk tr]; simpl; intros ->.
  unfold Flush, bind, table_Lock, table_Unlock, table_op, modify_table.
  simpl. unfold after_Flush, stop_timer. simpl. by destruct tm.
Qed.

(** C10. [Flush] returns with the map empty ([Count] is 0), the interval
    0 and no timer pending; the on-add callbacks, the about-to-delete
    callbacks, the data loader and the name are as before, and no callback
    has run. The table can be used again: an [Add] stores its item, which
    is then the only entry, and runs the registered on-add callbacks (when
    the expiration check [Add] may trigger does not find the new item
    due already). *)
Theorem Flush_empties_and_keeps_configuration (w : World) :
  tmu (tbl w) = unlocked →
  ∃ w', Flush w = Ok tt w'
        ∧ items (tbl w') = ∅
        ∧ Count w' = Ok 0 w'
        ∧ cleanupInterval (tbl w') = 0
        ∧ idle (tbl w')
        ∧ addItem (tbl w') = addItem (tbl w)
        ∧ aboutToDeleteItem (tbl w') = aboutToDeleteItem (tbl w)
        ∧ loadData (tbl w') = loadData (tbl w)
        ∧ name (tbl w') = name (tbl w)
        ∧ trace w' = trace w
        ∧ ∀ k d v,
            (sweep_due d 0 = true → calm (after_add k d v w')) →
            ∃ w'', Add range_order k d v w' = Ok (length (heap w)) w''
                   ∧ items (tbl w'') = {[ k := length (heap w) ]}
                   ∧ trace w''
                     = trace w
                       ++ EvMapStore k (length (heap w))
                          :: map (λ cb, EvAdded cb (length (heap w)))
                               (addItem (tbl w)).
Proof.
  intros Ht. exists (after_Flush w). split; [by apply Flush_spec|].
  assert (Hf : items (tbl (after_Flush w)) = ∅
               ∧ cleanupInterval (tbl (after_Flush w)) = 0
               ∧ addItem (tbl (after_Flush w)) = addItem (tbl w)
               ∧ aboutToDeleteItem (tbl (after_Flush w))
                 = aboutToDeleteItem (tbl w)
               ∧ loadData (tbl (after_Flush w)) = loadData (tbl w)
               ∧ name (tbl (after_Flush w)) = name (tbl w)).
  { simpl. unfold stop_timer. simpl.
    destruct (cleanupTimer (tbl w)); simpl; done. }
  destruct Hf as (Hi & Hci & Hai & Had & Hld & Hn).
  split; [done|]. split.
  { rewrite Count_spec by done. by rewrite Hi, map_size_empty. }
  split; [done|]. split.
  { unfold idle. simpl. intros tm.
    pose proof (stop_timer_idle (set_interval 0 (set_items ∅ (tbl w))) tm).
    done. }
  split; [done|]. split; [done|]. split; [done|]. split; [done|].
  split; [done|].
  intros k d v Hc.
  assert (Hq : quiescent (after_Flush w)).
  { split; [done|]. intros k' p'. rewrite Hi. by rewrite lookup_empty. }
  rewrite <- Hci in Hc at 1.
  destruct (Add_returns (after_Flush w) k d v Hq Hc)
    as (w'' & Hrun & _ & Hi'' & Htr & _).
  exists w''. split; [done|]. rewrite Hi'', Htr.
  unfold after_add. simpl trace. simpl items. simpl in Hi, Hai.
  rewrite Hi, Hai. split; [|done].
  by rewrite insert_empty.
Qed.

End Operations.

(** ** MostAccessed *)

Section MostAccessed.

Variable range_order : gmap Key loc → list Key.
Hypothesis range_order_perm :
  ∀ m : gmap Key loc, range_order m ≡ₚ (map_to_list m).*1.

Variable sort_Sort : list CacheItemPair → list CacheItemPair.
Hypothesis sort_Sort_perm : ∀ l, sort_Sort l ≡ₚ l.
Hypothesis sort_Sort_sorted : ∀ l, Sorted by_Less (sort_Sort l).

Lemma omap_cons_eq {A B} (f : A → option B) (a : A) (l : list A) :
  omap f (a :: l)
  = match f a with Some b => b :: omap f l | None => omap f l end.
Proof. reflexivity. Qed.

Lemma omap_length_le {A B} (f : A → option B) (l : list A) :
  (length (omap f l) <= length l)%nat.
Proof.
  induction l as [|a l IH]; simpl; [done|].
  change (list_omap A B f l) with (omap f l).
  destruct (f a); simpl; lia.
Qed.

Lemma pairs_of_spec (keys : list Key) (w : World) :
  valid w →
  pairs_of keys w = Ok (pairs_list (heap w) (items (tbl w)) keys) w.
Proof.
  intros Hv. induction keys as [|k ks IH]; [done|].
  simpl. unfold item_at. unfold bind at 1, get_table at 1.
  destruct (items (tbl w) !! k) as [p|] eqn:Hk; simpl; [|done].
  destruct (Hv _ _ Hk) as (it & Hp & _).
  unfold bind, deref. rewrite Hp, IH. done.
Qed.

Lemma MostAccessed_spec (count : Z) (w : World) :
  quiescent w →
  MostAccessed range_order sort_Sort count w
  = Fatal unlock_msg
      (set_tbl (set_tmu {| writer := false; readers := 1 |} (tbl w)) w).
Proof.
  intros [Ht Hv]. unfold MostAccessed.
  unfold bind at 1, table_RLock at 1, table_op at 1. rewrite Ht. simpl.
  unfold bind at 1, get_table at 1. simpl.
  unfold bind at 1. rewrite pairs_of_spec by done. simpl.
  reflexivity.
Qed.

(** C8 (the code departs from the claim). [MostAccessed] takes the
    table's read lock and defers [table.Unlock()], the release of the
    write lock: whatever the count asked for, the call does not return a
    sequence but ends in the run-time's fatal error, the table left
    read-locked. *)
Theorem MostAccessed_never_returns (w : World) (count : Z) :
  quiescent w →
  ∃ w', MostAccessed range_order sort_Sort count w = Fatal unlock_msg w'
        ∧ items (tbl w') = items (tbl w)
        ∧ heap w' = heap w
        ∧ tmu (tbl w') = {| writer := false; readers := 1 |}.
Proof.
  intros Hq. eexists. split; [by apply MostAccessed_spec|done].
Qed.

Lemma top_items_take (m : gmap Key loc) (count : Z)
  (l : list CacheItemPair) : ∀ c,
  0 <= c → count <= max_int64 →
  top_items m count c l
  = omap (λ val, m !! PKey val) (take (Z.to_nat (count - c)) l).
Proof.
  induction l as [|val rest IH]; intros c Hc Hmax; simpl top_items.
  { by rewrite take_nil. }
  destruct (count <=? c) eqn:E.
  - apply Z.leb_le in E. by replace (Z.to_nat (count - c)) with 0%nat by lia.
  - apply Z.leb_gt in E.
    replace (Z.to_nat (count - c)) with (S (Z.to_nat (count - (c + 1))))
      by lia.
    rewrite wrap64_small
      by (unfold in_int64, min_int64, max_int64 in *; lia).
    rewrite firstn_cons, omap_cons_eq, IH by lia.
    by destruct (m !! PKey val).
Qed.

Lemma pairs_list_elem (h : list CacheItem) (m : gmap Key loc)
  (keys : list Key) (val : CacheItemPair) :
  val ∈ pairs_list h m keys →
  ∃ p, m !! PKey val = Some p ∧ access_of h p = PAccessCount val.
Proof.
  induction keys as [|k ks IH]; simpl.
  { intros H. by apply elem_of_nil in H. }
  unfold item_at at 1. destruct (m !! k) as [p|] eqn:Hk; simpl; [|done].
  destruct (h !! p) as [it|] eqn:Hp; [|done].
  intros [->|H]%elem_of_cons; [|by apply IH].
  exists p. simpl. split; [done|]. unfold access_of. by rewrite Hp.
Qed.

Lemma pairs_list_length (h : list CacheItem) (m : gmap Key loc)
  (keys : list Key) :
  (length (pairs_list h m keys) <= length keys)%nat.
Proof.
  induction keys as [|k ks IH]; simpl; [done|].
  destruct (item_at h m k); simpl; lia.
Qed.

Lemma by_Less_trans : Transitive by_Less.
Proof.
  intros a b c. unfold by_Less, Less. rewrite !Z.ltb_ge. lia.
Qed.

Lemma omap_sorted (h : list CacheItem) (m : gmap Key loc)
  (l : list CacheItemPair) :
  StronglySorted by_Less l →
  (∀ val, val ∈ l →
     ∃ p, m !! PKey val = Some p ∧ access_of h p = PAccessCount val) →
  StronglySorted (by_access h) (omap (λ val, m !! PKey val) l).
Proof.
  induction 1 as [|val l Hs IH Hall]; intros Hin.
  { constructor. }
  rewrite omap_cons_eq.
  destruct (Hin val) as (p & Hp & Hc); [by left|]. rewrite Hp.
  constructor.
  - apply IH. intros val' H'. apply Hin. by right.
  - apply Forall_forall. intros q Hq.
    apply list_elem_of_omap in Hq as (val' & Hin' & Hq).
    destruct (Hin val') as (q' & Hq' & Hc'); [by right|].
    assert (q' = q) as -> by congruence.
    rewrite Forall_forall in Hall.
    specialize (Hall val' Hin').
    unfold by_access, by_Less, Less in *. rewrite Z.ltb_ge in Hall. lia.
Qed.

(** The sequence [MostAccessed] has computed when its deferred unlock
    fails: at most [min(count, Count())] items, in order of non-increasing
    access count. *)
Lemma MostAccessed_computed_sequence (w : World) (count : Z) :
  0 <= count <= max_int64 →
  let result :=
    top_items (items (tbl w)) count 0
      (sort_Sort (pairs_list (heap w) (items (tbl w))
                    (range_order (items (tbl w))))) in
  (length result <= Z.to_nat count `min` size (items (tbl w)))%nat
  ∧ StronglySorted (by_access (heap w)) result.
Proof.
  intros Hc. simpl. rewrite top_items_take by lia.
  rewrite Z.sub_0_r.
  set (l := pairs_list _ _ _). split.
  - etrans; [apply omap_length_le|].
    rewrite length_take, sort_Sort_perm.
    assert (length l <= size (items (tbl w)))%nat; [|lia].
    etrans; [apply pairs_list_length|].
    rewrite range_order_perm, length_fmap, length_map_to_list. done.
  - apply omap_sorted.
    + apply (StronglySorted_app_1_l _ _ (drop (Z.to_nat count) (sort_Sort l))).
      rewrite take_drop.
      apply Sorted_StronglySorted; [apply by_Less_trans|done].
    + intros val Hin. apply elem_of_take in Hin as (i & Hin & _).
      apply list_elem_of_lookup_2 in Hin.
      rewrite sort_Sort_perm in Hin. by eapply pairs_list_elem.
Qed.

End MostAccessed.

(** ** Invariants of the worlds the operations return in *)

Section Invariants.

Variable range_order : gmap Key loc → list Key.

Lemma well_formed_empty (ld : option Loader) (tk : list N) :
  well_formed (empty_world ld tk).
Proof.
  split; [split; [done|]|split]; unfold valid, timely, injective_items,
    item_of, item_at; simpl; intros *; by rewrite lookup_empty.
Qed.

Lemma item_of_same (w w' : World) (k : Key) :
  heap w' = heap w → items (tbl w') = items (tbl w) →
  item_of w' k = item_of w k.
Proof. unfold item_of. by intros -> ->. Qed.

Lemma well_formed_same (w w' : World) :
  heap w' = heap w → items (tbl w') = items (tbl w) →
  tmu (tbl w') = unlocked → clock w <= clock w' →
  well_formed w → well_formed w'.
Proof.
  intros Hh Hi Ht Hc ((_ & Hv) & Htm & Hinj).
  split; [split; [done|]|split].
  - intros k p. rewrite Hi, Hh. apply Hv.
  - intros k it. rewrite (item_of_same w w') by done. intros Hit.
    destruct (Htm k it Hit). split; [done|lia].
  - intros k1 k2 p. rewrite Hi. apply Hinj.
Qed.

Lemma item_of_after_add (w : World) (k k' : Key) (d : Z) (v : Val) :
  valid w →
  item_of (after_add k d v w) k'
  = if decide (k = k') then Some (new_item k d v (now_of w))
    else item_of w k'.
Proof.
  intros Hv. unfold item_of, item_at. simpl.
  destruct (decide (k = k')) as [->|Hne].
  - rewrite lookup_insert_eq. simpl. by rewrite lookup_app_r, Nat.sub_diag.
  - rewrite lookup_insert_ne by done.
    destruct (items (tbl w) !! k') as [p|] eqn:Hk; [|done]. simpl.
    destruct (Hv _ _ Hk) as (it & Hp & _).
    rewrite Hp. by apply lookup_app_l_Some.
Qed.

Lemma after_add_well_formed (w : World) (k : Key) (d : Z) (v : Val) :
  in_int64 d → well_formed w → well_formed (after_add k d v w).
Proof.
  intros Hd (Hq & Htm & Hinj). split; [by apply after_add_quiescent|split].
  - intros k' it. rewrite item_of_after_add by apply Hq.
    destruct (decide (k = k')) as [->|Hne].
    + intros [= <-]. simpl. split; [done|lia].
    + intros Hit. destruct (Htm k' it Hit). split; [done|].
      simpl. pose proof (now_of_ge w). lia.
  - assert (Hfresh : ∀ k0, items (tbl w) !! k0 ≠ Some (length (heap w))).
    { intros k0 Hk0. destruct (proj2 Hq _ _ Hk0) as (it & Hp & _).
      apply lookup_lt_Some in Hp. lia. }
    intros k1 k2 p. simpl.
    destruct (decide (k = k1)) as [<-|H1], (decide (k = k2)) as [<-|H2];
      rewrite ?lookup_insert_eq, ?lookup_insert_ne by done.
    + done.
    + intros [= <-] H. by apply Hfresh in H.
    + intros H [= <-]. by apply Hfresh in H.
    + apply Hinj.
Qed.

Lemma expirationCheck_well_formed (w w' : World) :
  well_formed w → expirationCheck range_order w = Ok tt w' →
  well_formed w'.
Proof.
  intros Hw. rewrite (expirationCheck_spec range_order w) by apply Hw.
  destruct (first_due _ _ _ _) as [[[k p] it]|]; [done|].
  intros [= <-].
  destruct (sweep_end_frame
              (smallest_of (now_of w) (heap w) (items (tbl w))
                 (range_order (items (tbl w))) 0) w)
    as (Hh & Hi & _ & Ht & _ & _ & _ & _ & _ & Hc & _).
  eapply well_formed_same; try done. rewrite Hc. apply now_of_ge.
Qed.

Lemma Add_well_formed (w w' : World) (k : Key) (d : Z) (v : Val) (p : loc) :
  in_int64 d → well_formed w → Add range_order k d v w = Ok p w' →
  well_formed w'.
Proof.
  intros Hd Hw. rewrite Add_spec by apply Hw.
  pose proof (after_add_well_formed w k d v Hd Hw) as Hw1.
  destruct (sweep_due d (cleanupInterval (tbl w))).
  - unfold bind.
    destruct (expirationCheck range_order (after_add k d v w))
      as [[] w1| |] eqn:E; try done.
    intros [= _ <-]. by eapply expirationCheck_well_formed.
  - by intros [= _ <-].
Qed.

Lemma NotFoundAdd_well_formed (w w' : World) (k : Key) (d : Z) (v : Val)
  (b : bool) :
  in_int64 d → well_formed w → NotFoundAdd range_order k d v w = Ok b w' →
  well_formed w'.
Proof.
  intros Hd Hw.
  destruct (items (tbl w) !! k) as [p|] eqn:Hk.
  - rewrite (NotFoundAdd_present_spec range_order w k d v p)
      by (done || apply Hw).
    by intros [= _ <-].
  - rewrite NotFoundAdd_absent_spec by (done || apply Hw).
    pose proof (after_add_well_formed w k d v Hd Hw) as Hw1.
    destruct (sweep_due d (cleanupInterval (tbl w))).
    + unfold bind.
      destruct (expirationCheck range_order (after_add k d v w))
        as [[] w1| |] eqn:E; try done.
      intros [= _ <-]. by eapply expirationCheck_well_formed.
    + by intros [= _ <-].
Qed.

Lemma Delete_well_formed (w w' : World) (k : Key)
  (r : option loc * option Err) :
  well_formed w → Delete k w = Ok r w' → well_formed w'.
Proof.
  intros ((Ht & Hv) & Htm & Hinj). rewrite Delete_spec by done.
  intros [= _ <-]. split; [split; [done|]|split].
  - intros k' p. simpl. intros Hk. apply lookup_delete_Some in Hk as [_ Hk].
    by eapply Hv.
  - intros k' it. unfold item_of, item_at. simpl.
    destruct (decide (k = k')) as [->|Hne].
    + by rewrite lookup_delete_eq.
    + rewrite lookup_delete_ne by done. apply Htm.
  - intros k1 k2 p. simpl.
    intros [_ H1]%lookup_delete_Some [_ H2]%lookup_delete_Some.
    by eapply Hinj.
Qed.

Lemma Flush_well_formed (w w' : World) :
  well_formed w → Flush w = Ok tt w' → well_formed w'.
Proof.
  intros ((Ht & Hv) & Htm & Hinj). rewrite Flush_spec by done.
  intros [= <-].
  assert (Hi : items (tbl (after_Flush w)) = ∅).
  { simpl. by rewrite stop_timer_items. }
  split; [split; [done|]|split]; unfold valid, timely, injective_items,
    item_of, item_at; rewrite Hi; intros *; by rewrite lookup_empty.
Qed.

Lemma after_hit_well_formed (w : World) (k : Key) (p : loc)
  (it : CacheItem) :
  well_formed w → items (tbl w) !! k = Some p → heap w !! p = Some it →
  well_formed (after_hit p it w).
Proof.
  intros (Hq & Htm & Hinj) Hk Hp.
  destruct (proj2 Hq _ _ Hk) as (it0 & Hp0 & Hm).
  assert (it0 = it) as -> by congruence.
  assert (Hlt : (p < length (heap w))%nat) by (eapply lookup_lt_Some; eauto).
  split; [by eapply after_hit_quiescent|split; [|done]].
  intros k' it'. unfold item_of, item_at. simpl.
  destruct (items (tbl w) !! k') as [p'|] eqn:Hk'; [|done]. simpl.
  destruct (decide (p = p')) as [<-|Hne].
  - rewrite list_lookup_insert_eq by done. intros [= <-]. simpl.
    destruct (Htm k it) as [H64 _].
    { unfold item_of, item_at. by rewrite Hk. }
    split; [done|lia].
  - rewrite list_lookup_insert_ne by done. intros Hp'.
    destruct (Htm k' it') as [H64 Ha].
    { unfold item_of, item_at. by rewrite Hk'. }
    split; [done|]. pose proof (now_of_ge w). lia.
Qed.

Lemma after_load_well_formed (w : World) (k : Key) (args : list Val)
  (loaded : CacheItem) :
  well_formed w → well_formed (after_load k args loaded w).
Proof.
  intros (Hq & Htm & Hinj).
  split; [by apply after_load_quiescent|split; [|done]].
  intros k' it. unfold item_of, item_at. simpl.
  destruct (items (tbl w) !! k') as [p|] eqn:Hk; [|done]. simpl.
  destruct (proj2 Hq _ _ Hk) as (it0 & Hp & _).
  rewrite (lookup_app_l_Some _ _ _ _ Hp). intros [= <-].
  apply (Htm k'). unfold item_of, item_at. by rewrite Hk.
Qed.

Lemma Value_well_formed (w w' : World) (k : Key) (args : list Val)
  (r : option loc * option Err) :
  loader_ok (tbl w) → well_formed w →
  Value range_order k args w = Ok r w' → well_formed w'.
Proof.
  intros Hld Hw.
  destruct (items (tbl w) !! k) as [p|] eqn:Hk.
  - destruct (proj2 (proj1 Hw) _ _ Hk) as (it & Hp & Hm).
    rewrite (Value_hit range_order w k args p it) by (done || apply Hw).
    intros [= _ <-]. by eapply after_hit_well_formed.
  - destruct (loadData (tbl w)) as [load|] eqn:El.
    + destruct (load k [VSlice args]) as [loaded|] eqn:Eload.
      * rewrite (Value_miss_load_spec range_order w k args load loaded)
          by (done || apply Hw).
        unfold bind.
        destruct (Add range_order k (lifeSpan loaded) _ _)
          as [q w1| |] eqn:E; try done.
        intros [= _ <-].
        apply (Add_well_formed (after_load k args loaded w) w1 k
                 (lifeSpan loaded) (VItem (length (heap w))) q);
          [by eapply Hld|by apply after_load_well_formed|exact E].
      * rewrite (Value_miss_not_loadable range_order w k args load)
          by (done || apply Hw).
        intros [= _ <-].
        apply (well_formed_same w); [done|done|apply Hw|simpl; lia|done].
    + rewrite Value_miss_no_loader by (done || apply Hw).
      by intros [= _ <-].
Qed.

(** However many sweeps run one after the other, and however the last
    one ends, an item whose lifespan is 0 stays in the map. *)
Lemma sweeps_keep_lifespan_0 (k : Key) (it : CacheItem) (n : nat) :
  ∀ w, quiescent w → item_of w k = Some it → lifeSpan it = 0 →
       items (tbl (world_of (times n (expirationCheck range_order) w))) !! k
       = items (tbl w) !! k.
Proof.
  induction n as [|n IH]; intros w Hq Hit H0; [done|].
  pose proof (expirationCheck_keeps_lifespan_0 range_order w k it Hq Hit H0)
    as Hkeep.
  change (times (S n) (expirationCheck range_order) w)
    with (bind (expirationCheck range_order)
            (λ _, times n (expirationCheck range_order)) w).
  unfold bind. revert Hkeep.
  rewrite (expirationCheck_spec range_order w Hq).
  destruct (first_due _ _ _ _) as [[[k' p'] it']|]; [done|].
  set (d := smallest_of _ _ _ _ _). intros Hkeep.
  destruct (sweep_end_frame d w) as (Hh & Hi & _ & Ht & _).
  rewrite IH; [exact Hkeep| |by rewrite (item_of_same w)|done].
  split; [done|]. intros k0 p0. rewrite Hi, Hh. apply Hq.
Qed.

End Invariants.

(** ** Soundness of the decidable conditions *)

Lemma check_items_sound (P : CacheItem → bool) (w : World) :
  check_items P w = true →
  ∀ k p, items (tbl w) !! k = Some p →
         ∃ it, heap w !! p = Some it ∧ P it = true.
Proof.
  unfold check_items. rewrite forallb_forall. intros H k p Hk.
  specialize (H (k, p)). simpl in H.
  destruct (heap w !! p) as [it|].
  - exists it. split; [done|]. apply H.
    by apply list_elem_of_In, elem_of_map_to_list.
  - discriminate H. by apply list_elem_of_In, elem_of_map_to_list.
Qed.

Lemma mutex_free_unlocked (m : RWMutex) :
  mutex_free m = true → m = unlocked.
Proof.
  destruct m as [[] [|n]]; unfold mutex_free; simpl; try done.
Qed.

Lemma quiescentb_sound (w : World) : quiescentb w = true → quiescent w.
Proof.
  unfold quiescentb. intros [Ht Hi]%andb_true_iff. split.
  - by apply mutex_free_unlocked.
  - intros k p Hk.
    destruct (check_items_sound _ w Hi k p Hk) as (it & Hp & Hm).
    exists it. split; [done|]. by apply mutex_free_unlocked.
Qed.

Lemma calmb_sound (w : World) : calmb w = true → calm w.
Proof.
  unfold calmb, calm, item_of, item_at. intros H k it Hit.
  destruct (items (tbl w) !! k) as [p|] eqn:Hk; [|done]. simpl in Hit.
  destruct (check_items_sound _ w H k p Hk) as (it' & Hp & Hd).
  assert (it' = it) as -> by congruence. by apply negb_true_iff.
Qed.

Lemma timelyb_sound (w : World) : timelyb w = true → timely w.
Proof.
  unfold timelyb, timely, item_of, item_at, in_int64. intros H k it Hit.
  destruct (items (tbl w) !! k) as [p|] eqn:Hk; [|done]. simpl in Hit.
  destruct (check_items_sound _ w H k p Hk) as (it' & Hp & Hd).
  assert (it' = it) as -> by congruence.
  apply andb_true_iff in Hd as [[H1 H2]%andb_true_iff H3]. lia.
Qed.

Lemma only_key_sound (k : Key) (p : loc) (w : World) :
  only_key k p w = true →
  ∀ k', items (tbl w) !! k' = Some p → k' = k.
Proof.
  unfold only_key. rewrite forallb_forall. intros H k' Hk'.
  specialize (H (k', p)). simpl in H.
  rewrite Nat.eqb_refl, orb_false_r in H.
  eapply bool_decide_eq_true_1, H.
  by apply list_elem_of_In, elem_of_map_to_list.
Qed.

Lemma key_order_perm (m : gmap Key loc) : key_order m ≡ₚ (map_to_list m).*1.
Proof. reflexivity. Qed.

Lemma insert_pair_perm (a : CacheItemPair) (l : list CacheItemPair) :
  insert_pair a l ≡ₚ a :: l.
Proof.
  induction l as [|b l IH]; simpl; [done|].
  destruct (Less b a); [|done]. rewrite IH. apply Permutation_swap.
Qed.

Lemma insertion_sort_perm (l : list CacheItemPair) : insertion_sort l ≡ₚ l.
Proof.
  induction l as [|a l IH]; simpl; [done|].
  by rewrite insert_pair_perm, IH.
Qed.

Lemma insert_pair_sorted (a : CacheItemPair) (l : list CacheItemPair) :
  Sorted by_Less l → Sorted by_Less (insert_pair a l).
Proof.
  induction 1 as [|b l Hs IH Hhd]; simpl.
  { repeat constructor. }
  destruct (Less b a) eqn:E.
  - constructor; [done|].
    destruct l as [|c l]; simpl in *.
    + constructor. unfold by_Less, Less in *.
      apply Z.ltb_lt in E. apply Z.ltb_ge. lia.
    + destruct (Less c a) eqn:E'.
      * constructor. by inversion Hhd.
      * constructor. unfold by_Less, Less in *.
        apply Z.ltb_lt in E. apply Z.ltb_ge. lia.
  - constructor; [by constructor|]. constructor. done.
Qed.

Lemma insertion_sort_sorted (l : list CacheItemPair) :
  Sorted by_Less (insertion_sort l).
Proof.
  induction l as [|a l IH]; simpl; [constructor|].
  by apply insert_pair_sorted.
Qed.

(** ** The theorems at concrete tables *)

Lemma Delete_present_reports_KeyNotFound_witness :
  tmu (tbl (test_world 0 [])) = unlocked
  ∧ items (tbl (test_world 0 [])) !! KStr "testkey_1" = Some 0%nat
  ∧ ∃ w', Delete (KStr "testkey_1") (test_world 0 [])
          = Ok (None, Some ErrKeyNotFound) w'
          ∧ items (tbl w') !! KStr "testkey_1" = None.
Proof.
  split; [reflexivity|]. split; [vm_compute; reflexivity|].
  apply (Delete_present_reports_KeyNotFound
           (test_world 0 []) (KStr "testkey_1") 0%nat);
    [reflexivity | vm_compute; reflexivity].
Defined.

Lemma Delete_runs_no_callback_witness :
  aboutToDeleteItem (tbl (test_world 0 [])) = [2%nat]
  ∧ aboutToExpire item_1 = [3%nat]
  ∧ ∃ r w', Delete (KStr "testkey_1") (test_world 0 []) = Ok r w'
            ∧ items (tbl w') !! KStr "testkey_1" = None
            ∧ trace w' = [EvMapDelete (KStr "testkey_1")].
Proof.
  split; [reflexivity|]. split; [reflexivity|].
  apply (Delete_runs_no_callback
           (test_world 0 []) (KStr "testkey_1") 0%nat item_1);
    [reflexivity | vm_compute; reflexivity | reflexivity].
Defined.

Lemma Value_hit_refreshes_access_metadata_witness :
  quiescent (test_world 7 [5%N])
  ∧ ∃ w' it',
      Value key_order (KStr "testkey_2") [] (test_world 7 [5%N])
      = Ok (Some 1%nat, None) w'
      ∧ items (tbl w') !! KStr "testkey_2" = Some 1%nat
      ∧ heap w' !! 1%nat = Some it'
      ∧ accessCount it' = 1
      ∧ accessedOn it' = clock w'
      ∧ 0 <= accessedOn it'.
Proof.
  assert (Hq : quiescent (test_world 7 [5%N]))
    by (apply quiescentb_sound; vm_compute; reflexivity).
  split; [exact Hq|].
  destruct (Value_hit_refreshes_access_metadata key_order
              (test_world 7 [5%N]) (KStr "testkey_2") [] 1%nat item_2 Hq)
    as [(w' & it' & Hrun & Hk & Hp & Hc & Ha & Hle & _) _].
  - vm_compute; reflexivity.
  - reflexivity.
  - unfold min_int64, max_int64; simpl; lia.
  - simpl; lia.
  - exists w', it'. repeat split; assumption.
Defined.

Lemma expirationCheck_stops_at_first_due_item_witness :
  quiescent (test_world_3 (5 * second) [])
  ∧ due (now_of (test_world_3 (5 * second) [])) item_2 = true
  ∧ due (now_of (test_world_3 (5 * second) [])) item_3 = true
  ∧ ∃ k' it' w',
      expirationCheck key_order (test_world_3 (5 * second) [])
      = Fatal unlock_msg w'
      ∧ item_of (test_world_3 (5 * second) []) k' = Some it'
      ∧ due (now_of (test_world_3 (5 * second) [])) it' = true
      ∧ items (tbl w')
        = delete k' (items (tbl (test_world_3 (5 * second) []))).
Proof.
  assert (Hq : quiescent (test_world_3 (5 * second) []))
    by (apply quiescentb_sound; vm_compute; reflexivity).
  split; [exact Hq|]. split; [vm_compute; reflexivity|].
  split; [vm_compute; reflexivity|].
  apply (expirationCheck_stops_at_first_due_item key_order key_order_perm
           (test_world_3 (5 * second) []) (KStr "testkey_2") item_2 Hq);
    vm_compute; reflexivity.
Defined.

Lemma expirationCheck_interval_is_min_remaining_witness :
  quiescent (test_world 400000000 [])
  ∧ timely (test_world 400000000 [])
  ∧ ∃ w', expirationCheck key_order (test_world 400000000 []) = Ok tt w'
          ∧ min_remaining (clock w') w' (cleanupInterval (tbl w'))
          ∧ (armed (tbl w') (cleanupInterval (tbl w'))
             ↔ 0 < cleanupInterval (tbl w')).
Proof.
  assert (Hq : quiescent (test_world 400000000 []))
    by (apply quiescentb_sound; vm_compute; reflexivity).
  assert (Ht : timely (test_world 400000000 []))
    by (apply timelyb_sound; vm_compute; reflexivity).
  assert (Hc : calm (test_world 400000000 []))
    by (apply calmb_sound; vm_compute; reflexivity).
  split; [exact Hq|]. split; [exact Ht|].
  destruct (expirationCheck_interval_is_min_remaining key_order
              key_order_perm (test_world 400000000 []) Hq Ht)
    as [Hret Hpost].
  destruct (Hret Hc) as [w' Hw']. exists w'. split; [exact Hw'|].
  destruct (Hpost w' Hw') as (_ & _ & _ & Hmin & Harm & _).
  split; assumption.
Defined.

Lemma MostAccessed_never_returns_witness :
  quiescent (test_world 0 [])
  ∧ ∃ w', MostAccessed key_order insertion_sort 1 (test_world 0 [])
          = Fatal unlock_msg w'
          ∧ items (tbl w') = items (tbl (test_world 0 []))
          ∧ heap w' = heap (test_world 0 [])
          ∧ tmu (tbl w') = {| writer := false; readers := 1 |}.
Proof.
  assert (Hq : quiescent (test_world 0 []))
    by (apply quiescentb_sound; vm_compute; reflexivity).
  split; [exact Hq|].
  exact (MostAccessed_never_returns key_order insertion_sort
           (test_world 0 []) 1 Hq).
Defined.


Lemma Add_replaces_without_deletion_callbacks_witness :
  quiescent (test_world 0 [])
  ∧ items (tbl (test_world 0 [])) !! KStr "testkey_1" = Some 0%nat
  ∧ ∃ w', Add key_order (KStr "testkey_1") 0 (VStr "new") (test_world 0 [])
          = Ok 2%nat w'
          ∧ items (tbl w') !! KStr "testkey_1" = Some 2%nat
          ∧ trace w' = [EvMapStore (KStr "testkey_1") 2%nat;
                        EvAdded 1%nat 2%nat].
Proof.
  assert (Hq : quiescent (test_world 0 []))
    by (apply quiescentb_sound; vm_compute; reflexivity).
  split; [exact Hq|]. split; [vm_compute; reflexivity|].
  destruct (Add_replaces_without_deletion_callbacks key_order
              (test_world 0 []) (KStr "testkey_1") 0 (VStr "new") 0%nat Hq)
    as (rest & Htr & _ & _ & Hcalm).
  - vm_compute; reflexivity.
  - apply only_key_sound. vm_compute; reflexivity.
  - destruct Hcalm as (-> & w' & Hrun & Hk); [discriminate|].
    exists w'. split; [exact Hrun|]. split; [exact Hk|].
    rewrite Hrun in Htr. exact Htr.
Defined.


Lemma Flush_empties_and_keeps_configuration_witness :
  tmu (tbl (test_world 0 [])) = unlocked
  ∧ ∃ w', Flush (test_world 0 []) = Ok tt w'
          ∧ items (tbl w') = ∅
          ∧ Count w' = Ok 0 w'
          ∧ cleanupInterval (tbl w') = 0
          ∧ idle (tbl w')
          ∧ addItem (tbl w') = [1%nat]
          ∧ aboutToDeleteItem (tbl w') = [2%nat]
          ∧ name (tbl w') = "testCache"%string.
Proof.
  split; [reflexivity|].
  destruct (Flush_empties_and_keeps_configuration key_order
              (test_world 0 []) eq_refl)
    as (w' & Hrun & Hi & Hcount & Hci & Hidle & Hai & Had & _ & Hn & _).
  exists w'. repeat split; assumption.
Defined.

(** ** Where the claims fail *)



(** C9 as stated fails: [Add] on a key that is present, with a lifespan of
    one nanosecond and the clock advancing by one nanosecond before the
    expiration check reads it, runs an about-to-delete callback (on the
    new item), not only the on-add callbacks. *)
Lemma Add_on_present_key_runs_about_to_delete :
  items (tbl (test_world 0 [0%N; 1%N])) !! KStr "testkey_1" = Some 0%nat
  ∧ EvAboutToDelete 2%nat 2%nat
    ∈ trace (world_of (Add key_order (KStr "testkey_1") 1 (VStr "new")
                         (test_world 0 [0%N; 1%N]))).
Proof.
  split; [vm_compute; reflexivity|]. vm_compute.
  apply list_elem_of_In. simpl. tauto.
Qed.

(** ** The repository's tests, run on the model *)

(** [TestCache]: a non-expiring item and an item of one second are added;
    both are found, the second with an access count of 1 and its
    lifespan. *)
Example TestCache_passes :
  ∃ w p it,
    (Add key_order (KStr "testkey_1") 0 (VStr "testvalue") ;;;
     Add key_order (KStr "testkey_2") second (VStr "testvalue") ;;;
     r1 <- Value key_order (KStr "testkey_1") [] ;;
     r2 <- Value key_order (KStr "testkey_2") [] ;;
     ret (r1, r2)) (Cache "testCacheaaa" [])
    = Ok ((Some 0%nat, None), (Some p, None)) w
    ∧ heap w !! p = Some it
    ∧ value it = VStr "testvalue"
    ∧ accessCount it = 1
    ∧ lifeSpan it = second.
Proof.
  eexists _, 1%nat, _. split; [vm_compute; reflexivity|].
  split; [reflexivity|]. repeat split.
Qed.

(** [TestExists]. *)
Example TestExists_passes :
  ∃ w, (Add key_order (KStr "testkey") 0 (VStr "testvalue") ;;;
        Exists (KStr "testkey")) (Cache "testExists" [])
       = Ok true w.
Proof. eexists. vm_compute. reflexivity. Qed.

(** The table of the statements above is the one the operations build. *)
Example test_world_is_built :
  ∃ w, (SetAddedItemCallback 1%nat ;;;
        SetAboutToDeleteItemCallback 2%nat ;;;
        p <- Add key_order (KStr "testkey_1") 0 (VStr "testvalue") ;;
        AddAboutToExpireCallback p 3%nat ;;;
        Add key_order (KStr "testkey_2") second (VStr "testvalue"))
         (Cache "testCache" [])
       = Ok 1%nat w
       ∧ heap w = heap (test_world 0 [])
       ∧ tbl w = tbl (test_world 0 []).
Proof.
  eexists. split; [vm_compute; reflexivity|].
  split; vm_compute; reflexivity.
Qed.

(** * Further properties of the code *)

(** ** Delete, deleteInternal and the lookups that follow *)

Lemma table_locked_of (w : World) :
  tmu (tbl (set_tbl (set_tmu locked (tbl w)) w)) = locked.
Proof. reflexivity. Qed.

(** X1. [Delete(k)] takes away the entry of [k] and nothing else: every
    other entry, every item, the interval and the timer are as before, no
    callback runs and the lock is free again; on a key that is absent the
    map is as it was. *)
Theorem Delete_removes_only_its_key (w : World) (k : Key) :
  tmu (tbl w) = unlocked →
  ∃ w', Delete k w = Ok (None, Some ErrKeyNotFound) w'
        ∧ items (tbl w') !! k = None
        ∧ (∀ k', k' ≠ k → items (tbl w') !! k' = items (tbl w) !! k')
        ∧ (items (tbl w) !! k = None → items (tbl w') = items (tbl w))
        ∧ heap w' = heap w
        ∧ cleanupInterval (tbl w') = cleanupInterval (tbl w)
        ∧ cleanupTimer (tbl w') = cleanupTimer (tbl w)
        ∧ tmu (tbl w') = unlocked
        ∧ trace w' = trace w ++ [EvMapDelete k].
Proof.
  intros Ht. exists (after_Delete k w). split; [by apply Delete_spec|].
  simpl. split; [apply lookup_delete_eq|].
  split; [intros k' Hne; by apply lookup_delete_ne|].
  split; [intros Hk; by apply delete_id|]. done.
Qed.

(** X2. [deleteInternal], called with the table write-locked: on a key
    that is absent it returns [ErrKeyNotFound] and touches nothing; on a
    key it finds it runs the table's about-to-delete callbacks on the
    item, in their order, then the item's expiry callbacks on the key, in
    their order, then removes the entry, and then ends in the fatal error
    of its deferred [r.Unlock()], the item left read-locked. *)
Theorem deleteInternal_callbacks_then_removal (w : World) (k : Key) :
  tmu (tbl w) = locked →
  valid w →
  (items (tbl w) !! k = None →
   deleteInternal k w = Ok (None, Some ErrKeyNotFound) w)
  ∧ (∀ p it, items (tbl w) !! k = Some p → heap w !! p = Some it →
       ∃ w', deleteInternal k w = Fatal unlock_msg w'
             ∧ trace w'
               = trace w
                 ++ map (λ cb, EvAboutToDelete cb p)
                      (aboutToDeleteItem (tbl w))
                 ++ map (λ cb, EvAboutToExpire p cb k) (aboutToExpire it)
                 ++ [EvMapDelete k]
             ∧ items (tbl w') = delete k (items (tbl w))
             ∧ (imu <$> heap w' !! p)
               = Some {| writer := false; readers := 1 |}
             ∧ tmu (tbl w') = locked).
Proof.
  intros Ht Hv. split; [apply deleteInternal_missing|].
  intros p it Hk Hp. destruct (Hv _ _ Hk) as (it' & Hp' & Hm).
  assert (it' = it) as -> by congruence.
  exists (crash_world k p it w).
  split; [by apply deleteInternal_found|]. split; [done|]. split; [done|].
  split; [|done]. simpl.
  rewrite list_lookup_insert_eq by (by eapply lookup_lt_Some). done.
Qed.

Section Lookups.

Variable range_order : gmap Key loc → list Key.
Hypothesis range_order_perm :
  ∀ m : gmap Key loc, range_order m ≡ₚ (map_to_list m).*1.

(** What [Add] has done when it returns. *)
Lemma Add_Ok_inv (w w' : World) (k : Key) (d : Z) (v : Val) (p : loc) :
  quiescent w →
  Add range_order k d v w = Ok p w' →
  p = length (heap w)
  ∧ heap w' = heap w ++ [new_item k d v (now_of w)]
  ∧ items (tbl w') = <[k := length (heap w)]> (items (tbl w))
  ∧ trace w' = trace (after_add k d v w)
  ∧ tmu (tbl w') = unlocked
  ∧ loadData (tbl w') = loadData (tbl w).
Proof.
  intros Hq. rewrite Add_spec by apply Hq.
  destruct (sweep_due d (cleanupInterval (tbl w))).
  - pose proof (after_add_quiescent w k d v Hq) as Hq'.
    unfold bind. rewrite (expirationCheck_spec range_order _ Hq').
    destruct (first_due _ _ _ _) as [[[k' p'] it']|]; [done|].
    intros [= <- <-].
    destruct (sweep_end_frame
                (smallest_of (now_of (after_add k d v w))
                   (heap (after_add k d v w))
                   (items (tbl (after_add k d v w)))
                   (range_order (items (tbl (after_add k d v w)))) 0)
                (after_add k d v w))
      as (Hh & Hi & Htr & Ht & Hl & _).
    split; [done|]. split; [exact Hh|]. split; [exact Hi|].
    split; [exact Htr|]. split; [exact Ht|exact Hl].
  - intros [= <- <-]. simpl. destruct Hq as [-> _]. done.
Qed.

(** X3. When [Add(k, d, v)] returns an item: [Exists(k)] is true and
    changes nothing; [Count] is one more than before if [k] was absent
    and the same if it was present; the item holds [v] and [d], with an
    access count of 0; and [Value(k)] returns that very item, its access
    count then 1. *)
Theorem Add_then_lookups (w w' : World) (k : Key) (d : Z) (v : Val)
  (p : loc) (args : list Val) :
  quiescent w →
  Add range_order k d v w = Ok p w' →
  Exists k w' = Ok true w'
  ∧ (items (tbl w) !! k = None →
     Count w' = Ok (Z.of_nat (size (items (tbl w))) + 1) w')
  ∧ (is_Some (items (tbl w) !! k) →
     Count w' = Ok (Z.of_nat (size (items (tbl w)))) w')
  ∧ (∃ it, heap w' !! p = Some it ∧ key it = k ∧ value it = v
           ∧ lifeSpan it = d ∧ accessCount it = 0)
  ∧ ∃ w'' it', Value range_order k args w' = Ok (Some p, None) w''
               ∧ heap w'' !! p = Some it'
               ∧ value it' = v ∧ accessCount it' = 1.
Proof.
  intros Hq Hadd.
  destruct (Add_Ok_inv w w' k d v p Hq Hadd) as (-> & Hh & Hi & _ & Ht & _).
  assert (Hp : heap w' !! length (heap w)
               = Some (new_item k d v (now_of w))).
  { rewrite Hh. by rewrite lookup_app_r, Nat.sub_diag. }
  assert (Hk : items (tbl w') !! k = Some (length (heap w))).
  { rewrite Hi. apply lookup_insert_eq. }
  split.
  { rewrite Exists_spec by done. rewrite Hk.
    by rewrite bool_decide_eq_true_2. }
  split.
  { intros Hnone. rewrite Count_spec by done. rewrite Hi.
    rewrite map_size_insert_None by done. do 2 f_equal. lia. }
  split.
  { intros Hsome. rewrite Count_spec by done. rewrite Hi.
    by rewrite map_size_insert_Some. }
  split.
  { exists (new_item k d v (now_of w)). done. }
  exists (after_hit (length (heap w)) (new_item k d v (now_of w)) w'),
    (kept_alive (now_of w') (new_item k d v (now_of w))).
  split; [by apply Value_hit|]. simpl.
  split; [|done].
  apply list_lookup_insert_eq. by eapply lookup_lt_Some.
Qed.

(** X4. [Add] returns exactly when the expiration check it hands over to
    is not triggered or finds no item due. It is not triggered for a
    lifespan that is 0 or negative. When it is triggered and an item is
    due, be it the new one, [Add] ends in the fatal error of the check. *)
Theorem Add_returns_or_stops (w : World) (k : Key) (d : Z) (v : Val) :
  quiescent w →
  (d <= 0 → sweep_due d (cleanupInterval (tbl w)) = false)
  ∧ (sweep_due d (cleanupInterval (tbl w)) = false
     ∨ calm (after_add k d v w) →
     ∃ w', Add range_order k d v w = Ok (length (heap w)) w')
  ∧ (∀ k' it,
       sweep_due d (cleanupInterval (tbl w)) = true →
       item_of (after_add k d v w) k' = Some it →
       due (now_of (after_add k d v w)) it = true →
       ∃ w', Add range_order k d v w = Fatal unlock_msg w').
Proof.
  intros Hq. split; [|split].
  - intros Hd. unfold sweep_due.
    destruct (0 <? d) eqn:E; [apply Z.ltb_lt in E; lia|done].
  - intros Hor.
    destruct (Add_returns range_order w k d v Hq) as (w' & Hrun & _).
    + intros Hs. destruct Hor as [Hf|Hc]; [congruence|done].
    + by exists w'.
  - intros k' it Hs Hit Hd. rewrite Add_spec by apply Hq. rewrite Hs.
    pose proof (after_add_quiescent w k d v Hq) as Hq'.
    unfold bind. rewrite (expirationCheck_spec range_order _ Hq').
    destruct (due_first_due range_order range_order_perm _ k' it Hit Hd)
      as (k2 & p2 & it2 & ->). eauto.
Qed.

(** X5. A hit of [Value] touches the item it finds and nothing else: the
    table (its map, interval, timer, callbacks and loader) is as before,
    so the timer is not re-armed; every other item is untouched; no
    callback runs and the loader is not called. *)
Theorem Value_hit_touches_one_item (w : World) (k : Key) (args : list Val)
  (p : loc) :
  quiescent w →
  items (tbl w) !! k = Some p →
  ∃ w', Value range_order k args w = Ok (Some p, None) w'
        ∧ tbl w' = tbl w
        ∧ trace w' = trace w
        ∧ length (heap w') = length (heap w)
        ∧ ∀ q, q ≠ p → heap w' !! q = heap w !! q.
Proof.
  intros Hq Hk. destruct (proj2 Hq _ _ Hk) as (it & Hp & Hm).
  exists (after_hit p it w).
  split; [by apply Value_hit; [apply Hq|..]|]. simpl.
  split; [done|]. split; [done|]. split; [apply length_insert|].
  intros q Hne. by apply list_lookup_insert_ne.
Qed.

(** X6. After [Delete(k)] or [Flush], [Exists(k)] is false, and
    [Value(k)] on a table without loader fails with [ErrKeyNotFound]
    and changes nothing. *)
Theorem removal_then_lookups (w : World) (k : Key) (args : list Val) :
  tmu (tbl w) = unlocked →
  (∃ r w', Delete k w = Ok r w'
           ∧ Exists k w' = Ok false w'
           ∧ (loadData (tbl w) = None →
              Value range_order k args w'
              = Ok (None, Some ErrKeyNotFound) w'))
  ∧ (∃ w', Flush w = Ok tt w'
           ∧ Exists k w' = Ok false w'
           ∧ (loadData (tbl w) = None →
              Value range_order k args w'
              = Ok (None, Some ErrKeyNotFound) w')).
Proof.
  intros Ht. split.
  - exists (None, Some ErrKeyNotFound), (after_Delete k w).
    split; [by apply Delete_spec|].
    assert (Hk : items (tbl (after_Delete k w)) !! k = None)
      by apply lookup_delete_eq.
    split.
    + rewrite Exists_spec by done. rewrite Hk.
      rewrite bool_decide_eq_false_2; [done|]. by intros [? ?].
    + intros Hl. by apply Value_miss_no_loader.
  - exists (after_Flush w). split; [by apply Flush_spec|].
    assert (Hi : items (tbl (after_Flush w)) = ∅).
    { simpl. by rewrite stop_timer_items. }
    assert (Hl' : loadData (tbl (after_Flush w)) = loadData (tbl w)).
    { simpl. unfold stop_timer. simpl.
      by destruct (cleanupTimer (tbl w)). }
    split.
    + rewrite Exists_spec by done. rewrite Hi, lookup_empty.
      rewrite bool_decide_eq_false_2; [done|]. by intros [? ?].
    + intros Hl. apply Value_miss_no_loader; [done| |congruence].
      by rewrite Hi, lookup_empty.
Qed.

(** X7. When [NotFoundAdd(k, d, v)] has returned true, a second
    [NotFoundAdd] of the same key, whatever its lifespan and value,
    returns false and changes nothing: the key still leads to the item
    built by the first call. *)
Theorem NotFoundAdd_twice (w w' : World) (k : Key) (d d' : Z) (v v' : Val) :
  quiescent w →
  NotFoundAdd range_order k d v w = Ok true w' →
  NotFoundAdd range_order k d' v' w' = Ok false w'
  ∧ item_of w' k = Some (new_item k d v (now_of w)).
Proof.
  intros Hq Hrun.
  destruct (items (tbl w) !! k) as [p|] eqn:Hk.
  { rewrite (NotFoundAdd_present_spec range_order w k d v p) in Hrun
      by (done || apply Hq). done. }
  rewrite NotFoundAdd_absent_spec in Hrun by (done || apply Hq).
  assert (Hw' : heap w' = heap (after_add k d v w)
                ∧ items (tbl w') = items (tbl (after_add k d v w))
                ∧ tmu (tbl w') = unlocked).
  { destruct (sweep_due d (cleanupInterval (tbl w))).
    - pose proof (after_add_quiescent w k d v Hq) as Hq'.
      unfold bind in Hrun.
      rewrite (expirationCheck_spec range_order _ Hq') in Hrun.
      destruct (first_due _ _ _ _) as [[[k' p'] it']|]; [done|].
      injection Hrun as <-.
      destruct (sweep_end_frame
                  (smallest_of (now_of (after_add k d v w))
                     (heap (after_add k d v w))
                     (items (tbl (after_add k d v w)))
                     (range_order (items (tbl (after_add k d v w)))) 0)
                  (after_add k d v w))
        as (Hh & Hi & _ & Ht & _).
      split; [exact Hh|]. split; [exact Hi|exact Ht].
    - injection Hrun as <-. simpl. destruct Hq as [-> _]. done. }
  destruct Hw' as (Hh & Hi & Ht).
  assert (Hk' : items (tbl w') !! k = Some (length (heap w))).
  { rewrite Hi. simpl. apply lookup_insert_eq. }
  split.
  - by apply (NotFoundAdd_present_spec range_order w' k d' v'
                (length (heap w))).
  - unfold item_of, item_at. rewrite Hk'. simpl. rewrite Hh. simpl.
    by rewrite lookup_app_r, Nat.sub_diag.
Qed.

End Lookups.

(** ** Sweeps in a row, and the sequence MostAccessed builds *)

Section MoreSweeps.

Variable range_order : gmap Key loc → list Key.
Hypothesis range_order_perm :
  ∀ m : gmap Key loc, range_order m ≡ₚ (map_to_list m).*1.

Lemma sweeps_Ok_frame (n : nat) : ∀ w w',
  quiescent w →
  times n (expirationCheck range_order) w = Ok tt w' →
  quiescent w' ∧ heap w' = heap w ∧ items (tbl w') = items (tbl w).
Proof.
  induction n as [|n IH]; intros w w' Hq.
  { by intros [= <-]. }
  change (times (S n) (expirationCheck range_order) w)
    with (bind (expirationCheck range_order)
            (λ _, times n (expirationCheck range_order)) w).
  unfold bind. rewrite (expirationCheck_spec range_order w Hq).
  destruct (first_due _ _ _ _) as [[[k' p'] it']|]; [done|].
  set (d := smallest_of _ _ _ _ _). intros Hrun.
  destruct (sweep_end_frame d w) as (Hh & Hi & _ & Ht & _).
  destruct (IH _ _ ltac:(split; [exact Ht|]; intros k0 p0;
                         rewrite Hi, Hh; apply Hq) Hrun)
    as (Hq' & Hh' & Hi').
  split; [done|]. split; congruence.
Qed.

(** X8. An item whose lifespan is 0 outlives every sweep: however many
    sweeps run one after the other and however the last one ends, its
    entry is in the map, and when they have all returned [Exists] says
    so. *)
Theorem lifespan_0_survives_sweeps (w : World) (k : Key) (it : CacheItem)
  (n : nat) :
  quiescent w →
  item_of w k = Some it →
  lifeSpan it = 0 →
  items (tbl (world_of (times n (expirationCheck range_order) w))) !! k
  = items (tbl w) !! k
  ∧ ∀ w', times n (expirationCheck range_order) w = Ok tt w' →
          Exists k w' = Ok true w'.
Proof.
  intros Hq Hit H0.
  split; [by eapply sweeps_keep_lifespan_0|].
  intros w' Hrun.
  destruct (sweeps_Ok_frame n w w' Hq Hrun) as (Hq' & _ & Hi).
  rewrite Exists_spec by apply Hq'. rewrite Hi.
  unfold item_of, item_at in Hit.
  destruct (items (tbl w) !! k); [|done].
  by rewrite bool_decide_eq_true_2.
Qed.

End MoreSweeps.

Section Ranking.

Variable sort_Sort : list CacheItemPair → list CacheItemPair.
Hypothesis sort_Sort_perm : ∀ l, sort_Sort l ≡ₚ l.
Hypothesis sort_Sort_sorted : ∀ l, Sorted by_Less (sort_Sort l).

(** X9. The two loops of [MostAccessed], around [sort.Sort]: the first
    collects one pair for each key it is given and leaves the world as it
    was; from the sorted pairs the second builds a sequence of at most
    [count] items and at most as many as there are pairs, in order of
    non-increasing access count. For a count of 0 or less the sequence is
    empty. *)
Theorem MostAccessed_loops (w : World) (keys : list Key) (count : Z) :
  valid w →
  count <= max_int64 →
  ∃ p, pairs_of keys w = Ok p w
       ∧ (length p <= length keys)%nat
       ∧ (length (top_items (items (tbl w)) count 0 (sort_Sort p))
          <= Z.to_nat count `min` length p)%nat
       ∧ StronglySorted (by_access (heap w))
           (top_items (items (tbl w)) count 0 (sort_Sort p))
       ∧ (count <= 0 →
          top_items (items (tbl w)) count 0 (sort_Sort p) = []).
Proof.
  intros Hv Hc. exists (pairs_list (heap w) (items (tbl w)) keys).
  split; [by apply pairs_of_spec|].
  split; [apply pairs_list_length|].
  rewrite top_items_take by lia. rewrite Z.sub_0_r.
  set (l := pairs_list _ _ _). split; [|split].
  - etrans; [apply omap_length_le|].
    rewrite length_take, sort_Sort_perm. done.
  - apply omap_sorted.
    + apply (StronglySorted_app_1_l _ _
               (drop (Z.to_nat count) (sort_Sort l))).
      rewrite take_drop.
      apply Sorted_StronglySorted; [apply by_Less_trans|done].
    + intros val Hin. apply elem_of_take in Hin as (i & Hin & _).
      apply list_elem_of_lookup_2 in Hin.
      rewrite sort_Sort_perm in Hin. by eapply pairs_list_elem.
  - intros H0. by replace (Z.to_nat count) with 0%nat by lia.
Qed.

End Ranking.

(** X10. [Less] orders the pairs by decreasing access count, and it is
    the strict weak order [sort.Sort] relies on: irreflexive, transitive,
    and with a transitive incomparability (equal access counts). *)
Theorem Less_strict_weak_order :
  (∀ a b, Less a b = true ↔ PAccessCount b < PAccessCount a)
  ∧ (∀ a, Less a a = false)
  ∧ (∀ a b c, Less a b = true → Less b c = true → Less a c = true)
  ∧ (∀ a b, incomparable a b ↔ PAccessCount a = PAccessCount b)
  ∧ (∀ a b c, incomparable a b → incomparable b c → incomparable a c).
Proof.
  unfold incomparable, Less. repeat split.
  - by intros ?%Z.ltb_lt.
  - by intros ?%Z.ltb_lt.
  - intros a. apply Z.ltb_irrefl.
  - intros a b c. rewrite !Z.ltb_lt. lia.
  - rewrite !Z.ltb_ge in *. lia.
  - apply Z.ltb_ge. lia.
  - apply Z.ltb_ge. lia.
  - rewrite !Z.ltb_ge in *. lia.
  - rewrite !Z.ltb_ge in *. lia.
Qed.

(** ** Registering callbacks and the loader *)

Lemma SetAddedItemCallback_spec (w : World) (f : CbId) :
  tmu (tbl w) = unlocked →
  SetAddedItemCallback f w = Ok tt (set_tbl (set_addItem [f] (tbl w)) w).
Proof.
  destruct w as [h [m n its tm ci ld ai ad] c tk tr]; simpl; intros ->.
  unfold SetAddedItemCallback, RemoveAddedItemCallbacks,
    AddAddedItemCallback, bind, get_table, table_Lock, table_Unlock,
    table_RLock, table_RUnlock, table_op, modify_table, ret. simpl.
  by destruct ai.
Qed.

Lemma AddAddedItemCallback_spec (w : World) (f : CbId) :
  tmu (tbl w) = unlocked →
  AddAddedItemCallback f w
  = Ok tt (set_tbl (set_addItem (addItem (tbl w) ++ [f]) (tbl w)) w).
Proof.
  destruct w as [h [m n its tm ci ld ai ad] c tk tr]; simpl; intros ->.
  reflexivity.
Qed.

Lemma RemoveAddedItemCallbacks_spec (w : World) :
  tmu (tbl w) = unlocked →
  RemoveAddedItemCallbacks w = Ok tt (set_tbl (set_addItem [] (tbl w)) w).
Proof.
  destruct w as [h [m n its tm ci ld ai ad] c tk tr]; simpl; intros ->.
  reflexivity.
Qed.

Lemma SetAboutToDeleteItemCallback_spec (w : World) (f : CbId) :
  tmu (tbl w) = unlocked →
  SetAboutToDeleteItemCallback f w
  = Ok tt (set_tbl (set_aboutToDeleteItem [f] (tbl w)) w).
Proof.
  destruct w as [h [m n its tm ci ld ai ad] c tk tr]; simpl; intros ->.
  unfold SetAboutToDeleteItemCallback, RemoveAboutToDeleteItemCallback,
    bind, get_table, table_Lock, table_Unlock, table_op, modify_table,
    ret. simpl.
  by destruct ad.
Qed.

Lemma AddAboutToDeleteItemCallback_spec (w : World) (f : CbId) :
  tmu (tbl w) = unlocked →
  AddAboutToDeleteItemCallback f w
  = Ok tt (set_tbl (set_aboutToDeleteItem
                      (aboutToDeleteItem (tbl w) ++ [f]) (tbl w)) w).
Proof.
  destruct w as [h [m n its tm ci ld ai ad] c tk tr]; simpl; intros ->.
  reflexivity.
Qed.

Lemma RemoveAboutToDeleteItemCallback_spec (w : World) :
  tmu (tbl w) = unlocked →
  RemoveAboutToDeleteItemCallback w
  = Ok tt (set_tbl (set_aboutToDeleteItem [] (tbl w)) w).
Proof.
  destruct w as [h [m n its tm ci ld ai ad] c tk tr]; simpl; intros ->.
  reflexivity.
Qed.

Lemma SetDataLoader_spec (w : World) (f : Loader) :
  tmu (tbl w) = unlocked →
  SetDataLoader f w = Ok tt (set_tbl (set_loadData (Some f) (tbl w)) w).
Proof.
  destruct w as [h [m n its tm ci ld ai ad] c tk tr]; simpl; intros ->.
  reflexivity.
Qed.

(** X11. The callback lists of the table. [Set...Callback] leaves the one
    function given as the whole list, whatever was registered;
    [Add...Callback] appends it after those registered; [Remove...]
    empties the list. Each returns with the lock free and touches nothing
    else: the other list, the map, the items, the loader, the timer. *)
Theorem table_callback_registration (w : World) (f : CbId) :
  tmu (tbl w) = unlocked →
  SetAddedItemCallback f w = Ok tt (set_tbl (set_addItem [f] (tbl w)) w)
  ∧ AddAddedItemCallback f w
    = Ok tt (set_tbl (set_addItem (addItem (tbl w) ++ [f]) (tbl w)) w)
  ∧ RemoveAddedItemCallbacks w
    = Ok tt (set_tbl (set_addItem [] (tbl w)) w)
  ∧ SetAboutToDeleteItemCallback f w
    = Ok tt (set_tbl (set_aboutToDeleteItem [f] (tbl w)) w)
  ∧ AddAboutToDeleteItemCallback f w
    = Ok tt (set_tbl (set_aboutToDeleteItem
                        (aboutToDeleteItem (tbl w) ++ [f]) (tbl w)) w)
  ∧ RemoveAboutToDeleteItemCallback w
    = Ok tt (set_tbl (set_aboutToDeleteItem [] (tbl w)) w).
Proof.
  intros Ht.
  split; [by apply SetAddedItemCallback_spec|].
  split; [by apply AddAddedItemCallback_spec|].
  split; [by apply RemoveAddedItemCallbacks_spec|].
  split; [by apply SetAboutToDeleteItemCallback_spec|].
  split; [by apply AddAboutToDeleteItemCallback_spec|].
  by apply RemoveAboutToDeleteItemCallback_spec.
Qed.

Lemma expire_update_spec (w : World) (p : loc) (it : CacheItem)
  (cbs : list CbId → list CbId) :
  heap w !! p = Some it → imu it = unlocked →
  (item_Lock p ;;;
   x <- deref p ;;
   store p (set_aboutToExpire (cbs (aboutToExpire x)) x) ;;;
   item_Unlock p) w
  = Ok tt (set_heap
             (<[p := set_aboutToExpire (cbs (aboutToExpire it)) it]>
                (heap w)) w).
Proof.
  intros Hp Hm.
  assert (Hlt : (p < length (heap w))%nat) by (eapply lookup_lt_Some; eauto).
  unfold item_Lock, item_Unlock, item_op, bind, deref, store.
  rewrite Hp, Hm. simpl.
  rewrite list_lookup_insert_eq by done. simpl.
  rewrite list_lookup_insert_eq by (by rewrite length_insert). simpl.
  unfold set_heap. simpl. rewrite !list_insert_insert_eq.
  do 3 f_equal. destruct it; simpl in *. by subst.
Qed.

(** X12. The expiry callbacks of an item. [SetAboutToExpireCallback]
    leaves the one function given as the item's whole list, whatever was
    registered; [AddAboutToExpireCallback] appends it;
    [RemoveAboutToExpireCallback] empties the list. Each returns with the
    item's lock free and changes nothing else of the item (key, value,
    lifespan, times, access count), no other item, and not the table. *)
Theorem item_callback_registration (w : World) (p : loc) (it : CacheItem)
  (f : CbId) :
  heap w !! p = Some it →
  imu it = unlocked →
  SetAboutToExpireCallback p f w
  = Ok tt (set_heap (<[p := set_aboutToExpire [f] it]> (heap w)) w)
  ∧ AddAboutToExpireCallback p f w
    = Ok tt (set_heap
               (<[p := set_aboutToExpire (aboutToExpire it ++ [f]) it]>
                  (heap w)) w)
  ∧ RemoveAboutToExpireCallback p w
    = Ok tt (set_heap (<[p := set_aboutToExpire [] it]> (heap w)) w).
Proof.
  intros Hp Hm.
  assert (Hlt : (p < length (heap w))%nat) by (eapply lookup_lt_Some; eauto).
  assert (Hadd : ∀ w0 it0, heap w0 !! p = Some it0 → imu it0 = unlocked →
            AddAboutToExpireCallback p f w0
            = Ok tt (set_heap
                       (<[p := set_aboutToExpire (aboutToExpire it0 ++ [f])
                                 it0]> (heap w0)) w0)).
  { intros w0 it0 Hp0 Hm0.
    apply (expire_update_spec w0 p it0 (λ l, l ++ [f]) Hp0 Hm0). }
  assert (Hrem : RemoveAboutToExpireCallback p w
                 = Ok tt (set_heap (<[p := set_aboutToExpire [] it]> (heap w))
                            w)).
  { apply (expire_update_spec w p it (λ _, []) Hp Hm). }
  split; [|split; [by apply Hadd|exact Hrem]].
  unfold SetAboutToExpireCallback.
  unfold bind at 1, deref at 1. rewrite Hp.
  change (bind _ _ ?w0) with
    (bind (if (0 <? length (aboutToExpire it))%nat
           then RemoveAboutToExpireCallback p else ret tt)
       (λ _, AddAboutToExpireCallback p f) w0).
  destruct (aboutToExpire it) as [|cb cbs] eqn:Ecb; simpl.
  - unfold bind at 1, ret at 1. rewrite (Hadd w it Hp Hm), Ecb. done.
  - unfold bind at 1. rewrite Hrem.
    erewrite Hadd;
      [|simpl; by apply list_lookup_insert_eq|done].
    simpl. unfold set_heap. simpl. by rewrite list_insert_insert_eq.
Qed.

(** X13. [SetDataLoader] installs the loader and touches nothing else;
    from then on a miss of [Value] consults it, with the key and the
    extra arguments as one slice: when the loader yields nothing the
    error is [ErrKeyNotFoundOrLoadable], no longer [ErrKeyNotFound], and
    the map is unchanged. *)
Theorem SetDataLoader_then_miss (range_order : gmap Key loc → list Key)
  (w : World) (f : Loader) (k : Key) (args : list Val) :
  tmu (tbl w) = unlocked →
  items (tbl w) !! k = None →
  f k [VSlice args] = None →
  ∃ w1 w2,
    SetDataLoader f w = Ok tt w1
    ∧ w1 = set_tbl (set_loadData (Some f) (tbl w)) w
    ∧ Value range_order k args w1
      = Ok (None, Some ErrKeyNotFoundOrLoadable) w2
    ∧ items (tbl w2) = items (tbl w)
    ∧ heap w2 = heap w
    ∧ trace w2 = trace w ++ [EvLoad k [VSlice args]].
Proof.
  intros Ht Hk Hf. eexists _, _.
  split; [by apply SetDataLoader_spec|]. split; [reflexivity|].
  split; [by apply (Value_miss_not_loadable range_order _ k args f)|done].
Qed.

(** ** KeepAlive and the getters of an item *)

Lemma KeepAlive_spec (w : World) (p : loc) (it : CacheItem) :
  heap w !! p = Some it → imu it = unlocked →
  KeepAlive p w = Ok tt (after_hit p it w).
Proof.
  intros Hp Hm.
  assert (Hlt : (p < length (heap w))%nat) by (eapply lookup_lt_Some; eauto).
  destruct w as [h t c tk tr]; simpl in *.
  unfold KeepAlive, bind, item_Lock, item_Unlock, item_op, bind, deref,
    store, time_Now, ret. simpl.
  rewrite Hp, Hm. simpl.
  destruct tk as [|d tk]; simpl;
    rewrite !list_lookup_insert_eq by (rewrite ?length_insert; done); simpl;
    rewrite !list_lookup_insert_eq by (rewrite ?length_insert; done); simpl;
    unfold after_hit, now_of, kept_alive, set_heap, set_imu; simpl;
    rewrite !list_insert_insert_eq, Hm; reflexivity.
Qed.

Lemma getters_spec (w : World) (p : loc) (it : CacheItem) :
  heap w !! p = Some it → imu it = unlocked →
  AccessedOn p w = Ok (accessedOn it) w
  ∧ AccessCount p w = Ok (accessCount it) w
  ∧ LifeSpan p w = Ok (lifeSpan it) w
  ∧ CreatedOn p w = Ok (createdOn it) w
  ∧ CacheItem_Key p w = Ok (key it) w
  ∧ CacheItem_Value p w = Ok (value it) w.
Proof.
  intros Hp Hm.
  split; [|split].
  - unfold AccessedOn.
    by rewrite (item_read w p it (λ x, ret (accessedOn x)) Hp Hm).
  - unfold AccessCount.
    by rewrite (item_read w p it (λ x, ret (accessCount x)) Hp Hm).
  - unfold LifeSpan, CreatedOn, CacheItem_Key, CacheItem_Value, bind, deref,
      ret. by rewrite Hp.
Qed.

(** X14. [KeepAlive] on an item whose lock is free returns, and the
    getters then report: [AccessedOn] the reading of the clock;
    [AccessCount] one more than before, wrapped in int64, so that from
    the maximum it is the minimum; [LifeSpan], [CreatedOn], [Key] and
    [Value] what they were. The getters change nothing, and [KeepAlive]
    does not touch the table. *)
Theorem KeepAlive_then_getters (w : World) (p : loc) (it : CacheItem) :
  heap w !! p = Some it →
  imu it = unlocked →
  ∃ w', KeepAlive p w = Ok tt w'
        ∧ tbl w' = tbl w
        ∧ AccessedOn p w' = Ok (now_of w) w'
        ∧ AccessCount p w' = Ok (wrap64 (accessCount it + 1)) w'
        ∧ (min_int64 <= accessCount it < max_int64 →
           AccessCount p w' = Ok (accessCount it + 1) w')
        ∧ (accessCount it = max_int64 →
           AccessCount p w' = Ok min_int64 w')
        ∧ LifeSpan p w' = Ok (lifeSpan it) w'
        ∧ CreatedOn p w' = Ok (createdOn it) w'
        ∧ CacheItem_Key p w' = Ok (key it) w'
        ∧ CacheItem_Value p w' = Ok (value it) w'.
Proof.
  intros Hp Hm.
  assert (Hlt : (p < length (heap w))%nat) by (eapply lookup_lt_Some; eauto).
  exists (after_hit p it w). split; [by apply KeepAlive_spec|].
  split; [done|].
  destruct (getters_spec (after_hit p it w) p (kept_alive (now_of w) it))
    as (Ha & Hc & Hl & Hcr & Hk & Hv).
  { simpl. by apply list_lookup_insert_eq. }
  { done. }
  split; [exact Ha|]. split; [exact Hc|]. split.
  { intros Hr. rewrite Hc. simpl. f_equal.
    apply wrap64_small. unfold in_int64. lia. }
  split.
  { intros Hr. rewrite Hc. simpl. rewrite Hr. reflexivity. }
  done.
Qed.

(** ** Foreach *)

Section Foreaches.

Variable range_order : gmap Key loc → list Key.
Hypothesis range_order_perm :
  ∀ m : gmap Key loc, range_order m ≡ₚ (map_to_list m).*1.

Lemma entries_of_entries (m : gmap Key loc) (l : list (Key * loc)) :
  (∀ kp, kp ∈ l → m !! kp.1 = Some kp.2) →
  entries_of m l.*1 = l.
Proof.
  induction l as [|[k p] l IH]; intros H; [done|].
  pose proof (H (k, p) ltac:(left)) as Hkp. simpl in Hkp.
  simpl. rewrite Hkp. f_equal.
  apply IH. intros kp Hin. apply H. by right.
Qed.

Lemma entries_of_perm (m : gmap Key loc) (l1 l2 : list Key) :
  l1 ≡ₚ l2 → entries_of m l1 ≡ₚ entries_of m l2.
Proof.
  induction 1 as [|k l1 l2 _ IH|k1 k2 l|l1 l2 l3 _ IH1 _ IH2]; simpl.
  - done.
  - destruct (m !! k); by rewrite IH.
  - destruct (m !! k1), (m !! k2); try done. apply Permutation_swap.
  - by rewrite IH1.
Qed.

Lemma entries_of_range_order (m : gmap Key loc) :
  entries_of m (range_order m) ≡ₚ map_to_list m.
Proof.
  rewrite (entries_of_perm m _ _ (range_order_perm m)).
  rewrite entries_of_entries; [done|].
  intros [k p] Hin. by apply elem_of_map_to_list.
Qed.

Lemma foreach_loop_emit (f : Key → loc → Event) (keys : list Key) :
  ∀ w,
    foreach_loop (λ k p, emit [f k p]) keys w
    = Ok tt {| heap := heap w; tbl := tbl w; clock := clock w;
               ticks := ticks w;
               trace := trace w
                        ++ map (λ kp, f kp.1 kp.2)
                             (entries_of (items (tbl w)) keys) |}.
Proof.
  induction keys as [|k ks IH]; intros w; simpl.
  { unfold ret. rewrite app_nil_r. by destruct w. }
  unfold bind at 1, get_table at 1.
  destruct (items (tbl w) !! k) as [p|]; [|apply IH].
  unfold bind, emit. rewrite IH. simpl. by rewrite <- app_assoc.
Qed.

(** X15. [Foreach] hands every entry of the map to the caller's function
    exactly once, in the order of the iteration, and returns with the
    table as it was and its lock free; on an empty table the function is
    not called. *)
Theorem Foreach_visits_every_entry_once (w : World)
  (f : Key → loc → Event) :
  tmu (tbl w) = unlocked →
  ∃ visited,
    Foreach range_order (λ k p, emit [f k p]) w
    = Ok tt {| heap := heap w; tbl := tbl w; clock := clock w;
               ticks := ticks w;
               trace := trace w ++ map (λ kp, f kp.1 kp.2) visited |}
    ∧ visited ≡ₚ map_to_list (items (tbl w))
    ∧ (items (tbl w) = ∅ → visited = []).
Proof.
  intros Ht.
  exists (entries_of (items (tbl w)) (range_order (items (tbl w)))).
  split; [|split].
  - unfold Foreach. unfold bind at 1, table_RLock at 1, table_op at 1.
    rewrite Ht. simpl. unfold bind at 1, get_table at 1. simpl.
    unfold bind at 1. rewrite foreach_loop_emit. simpl.
    unfold table_RUnlock, table_op. simpl.
    destruct w as [h [m n its tm ci ld ai ad] c tk tr]; simpl in *.
    by subst m.
  - apply entries_of_range_order.
  - intros He.
    pose proof (entries_of_range_order (items (tbl w))) as Hp.
    rewrite He, map_to_list_empty in Hp.
    apply Permutation_nil_r in Hp. by rewrite He.
Qed.

Lemma foreach_loop_Exists (keys : list Key) (w : World) (n : nat) :
  tmu (tbl w) = {| writer := false; readers := n |} →
  foreach_loop (λ k _, Exists k ;;; ret tt) keys w = Ok tt w.
Proof.
  intros Ht. induction keys as [|k ks IH]; [done|]. simpl.
  unfold bind at 1, get_table at 1.
  destruct (items (tbl w) !! k) as [p|]; [|apply IH].
  unfold bind at 1.
  assert (He : (Exists k ;;; ret tt) w = Ok tt w).
  { destruct w as [h [m nm its tm ci ld ai ad] c tk tr]; simpl in *.
    subst m. reflexivity. }
  by rewrite He.
Qed.

(** X16. What the caller's function may do while [Foreach] holds the
    read lock. Reading the table again ([Exists]) is granted, and
    [Foreach] returns with the world as it was. [Delete] or [Flush], which
    ask for the write lock, block for ever on the first entry, so that
    [Foreach] never returns; on an empty table the function is not called
    and [Foreach] returns. *)
Theorem Foreach_reentrancy (w : World) :
  tmu (tbl w) = unlocked →
  Foreach range_order (λ k _, Exists k ;;; ret tt) w = Ok tt w
  ∧ (items (tbl w) ≠ ∅ →
     (∃ w', Foreach range_order (λ k _, Delete k ;;; ret tt) w = Blocked w')
     ∧ (∃ w', Foreach range_order (λ _ _, Flush) w = Blocked w'))
  ∧ (items (tbl w) = ∅ →
     Foreach range_order (λ k _, Delete k ;;; ret tt) w = Ok tt w
     ∧ Foreach range_order (λ _ _, Flush) w = Ok tt w).
Proof.
  intros Ht.
  assert (Hstart : ∀ trans,
            Foreach range_order trans w
            = (foreach_loop trans (range_order (items (tbl w))) ;;;
               table_RUnlock)
                (set_tbl (set_tmu {| writer := false; readers := 1 |}
                            (tbl w)) w)).
  { intros trans. unfold Foreach.
    unfold bind at 1, table_RLock at 1, table_op at 1. rewrite Ht.
    reflexivity. }
  assert (Hback : table_RUnlock
                    (set_tbl (set_tmu {| writer := false; readers := 1 |}
                                (tbl w)) w) = Ok tt w).
  { destruct w as [h [m n its tm ci ld ai ad] c tk tr]; simpl in *.
    by subst m. }
  split; [|split].
  - rewrite Hstart. unfold bind.
    rewrite (foreach_loop_Exists _ _ 1%nat) by done. exact Hback.
  - intros Hne.
    destruct (range_order (items (tbl w))) as [|k ks] eqn:Er.
    { exfalso. apply Hne. apply map_to_list_empty_iff.
      pose proof (range_order_perm (items (tbl w))) as Hp.
      rewrite Er in Hp. apply Permutation_nil_l in Hp.
      symmetry in Hp. by apply fmap_nil_inv in Hp. }
    assert (Hk : is_Some (items (tbl w) !! k)).
    { apply (range_order_elem range_order range_order_perm).
      rewrite Er. left. }
    destruct Hk as [p Hk].
    split.
    + rewrite Hstart; simpl; unfold bind at 1;
        unfold bind at 1, get_table at 1; simpl; rewrite Hk.
      unfold bind, Delete, table_Lock, table_op. simpl.
      eexists; reflexivity.
    + rewrite Hstart; simpl; unfold bind at 1;
        unfold bind at 1, get_table at 1; simpl; rewrite Hk.
      unfold bind, Flush, table_Lock, table_op. simpl.
      eexists; reflexivity.
  - intros He.
    assert (Er : range_order (items (tbl w)) = []).
    { pose proof (range_order_perm (items (tbl w))) as Hp.
      rewrite He, map_to_list_empty in Hp. simpl in Hp.
      apply Permutation_nil_r in Hp. by rewrite He. }
    split; rewrite Hstart, Er; simpl; unfold bind, ret; exact Hback.
Qed.

End Foreaches.

(** ** Invariants of the reachable worlds *)

Section Reachable.

Variable range_order : gmap Key loc → list Key.
Hypothesis range_order_perm :
  ∀ m : gmap Key loc, range_order m ≡ₚ (map_to_list m).*1.

Lemma sweep_end_timer (d : Z) (w : World) :
  (0 < d → armed (tbl (sweep_end d (sweep_start w))) d)
  ∧ (d <= 0 → idle (tbl (sweep_end d (sweep_start w)))).
Proof.
  unfold armed, idle. simpl. destruct (0 <? d) eqn:E.
  - apply Z.ltb_lt in E. split; [done|lia].
  - apply Z.ltb_ge in E. split; [lia|]. intros _. simpl.
    apply (stop_timer_idle (set_tmu locked (tbl w))).
Qed.

Lemma calm_sweep_smallest (w : World) :
  timely w →
  first_due (now_of w) (heap w) (items (tbl w))
    (range_order (items (tbl w))) = None →
  0 <= smallest_of (now_of w) (heap w) (items (tbl w))
         (range_order (items (tbl w))) 0
  ∧ ∀ k it, item_of w k = Some it → lifeSpan it ≠ 0 →
            0 < smallest_of (now_of w) (heap w) (items (tbl w))
                  (range_order (items (tbl w))) 0.
Proof.
  intros Ht E. rewrite first_due_None in E.
  assert (Hrem : ∀ k it, k ∈ range_order (items (tbl w)) →
            item_at (heap w) (items (tbl w)) k = Some it → lifeSpan it ≠ 0 →
            wrap64 (lifeSpan it - Sub (now_of w) (accessedOn it))
            = remaining (now_of w) it ∧ 0 < remaining (now_of w) it).
  { intros k it Hin Hit Hn. destruct (Ht k it Hit) as [H64 Hacc].
    apply code_remaining; [done| |done|by eapply E].
    pose proof (now_of_ge w). lia. }
  destruct (smallest_of_min (now_of w) (heap w) (items (tbl w))
              (range_order (items (tbl w))) 0 ltac:(lia) Hrem)
    as (Ha & Hb & _).
  split.
  - destruct Ha as [->|(k & it & Hin & Hit & Hn & ->)]; [done|].
    destruct (Hrem k it Hin Hit Hn). lia.
  - intros k it Hit Hn.
    assert (Hin : k ∈ range_order (items (tbl w)))
      by (by eapply (item_of_in_range range_order range_order_perm)).
    destruct (Hb k it Hin Hit Hn). done.
Qed.

(** A sweep that returns establishes the whole invariant. *)
Lemma sweep_establishes (w w' : World) :
  well_formed w → loader_ok (tbl w) → created_first w →
  expirationCheck range_order w = Ok tt w' →
  kept w' ∧ watched w'.
Proof.
  intros Hw Hl Hc Hrun.
  pose proof (expirationCheck_well_formed range_order w w' Hw Hrun) as Hw'.
  rewrite (expirationCheck_spec range_order w) in Hrun by apply Hw.
  destruct (first_due _ _ _ _) as [[[k p] it]|] eqn:E; [done|].
  injection Hrun as <-.
  set (d := smallest_of _ _ _ _ _) in *.
  destruct (sweep_end_frame d w)
    as (Hh & Hi & _ & Ht & Hld & _ & _ & _ & Hci & _ & _).
  destruct (calm_sweep_smallest w (proj1 (proj2 Hw)) E) as [Hd0 Hdpos].
  fold d in Hd0, Hdpos.
  destruct (sweep_end_timer d w) as [Harm Hidle].
  split; [split; [done|split; [|split]]|].
  - intros load k args it. rewrite Hld. apply Hl.
  - intros k it. rewrite (item_of_same w) by done. apply Hc.
  - unfold steady. rewrite Hci. split; [done|].
    split; [done|]. intros ->. by apply Hidle.
  - intros k it. rewrite (item_of_same w) by done. rewrite Hci.
    intros Hit Hpos. apply (Hdpos k it Hit). lia.
Qed.

Lemma same_store_kept (w w' : World) :
  heap w' = heap w → items (tbl w') = items (tbl w) →
  tmu (tbl w') = unlocked → clock w <= clock w' →
  cleanupInterval (tbl w') = cleanupInterval (tbl w) →
  cleanupTimer (tbl w') = cleanupTimer (tbl w) →
  loader_ok (tbl w') →
  kept w ∧ watched w → kept w' ∧ watched w'.
Proof.
  intros Hh Hi Ht Hc Hci Htm Hl' [(Hw & Hl & Hcf & Hs) Hwa].
  split; [split; [|split; [done|split]]|].
  - by apply (well_formed_same w).
  - intros k it. rewrite (item_of_same w) by done. apply Hcf.
  - unfold steady, armed, idle. rewrite Hci, Htm. apply Hs.
  - intros k it. rewrite (item_of_same w), Hci by done. apply Hwa.
Qed.

Lemma after_add_kept (w : World) (k : Key) (d : Z) (v : Val) :
  in_int64 d → kept w → kept (after_add k d v w).
Proof.
  intros Hd (Hw & Hl & Hc & Hs).
  split; [by apply after_add_well_formed|]. split; [done|].
  split; [|done].
  intros k' it. rewrite item_of_after_add by apply Hw.
  destruct (decide (k = k')) as [->|Hne].
  - intros [= <-]. simpl. lia.
  - apply Hc.
Qed.

Lemma after_add_watched (w : World) (k : Key) (d : Z) (v : Val) :
  kept w → watched w →
  sweep_due d (cleanupInterval (tbl w)) = false →
  watched (after_add k d v w).
Proof.
  intros (Hw & _ & _ & Hs0 & _) Hwa Hsd k' it.
  rewrite item_of_after_add by apply Hw.
  simpl. destruct (decide (k = k')) as [->|Hne].
  - intros [= <-]. simpl. intros Hpos. unfold sweep_due in Hsd.
    apply andb_false_iff in Hsd as [Hsd|Hsd].
    + apply Z.ltb_ge in Hsd. lia.
    + apply orb_false_iff in Hsd as [H0 _]. apply Z.eqb_neq in H0. lia.
  - apply Hwa.
Qed.

Lemma added_kept (w w' : World) (k : Key) (d : Z) (v : Val) :
  in_int64 d → kept w → watched w →
  (if sweep_due d (cleanupInterval (tbl w))
   then expirationCheck range_order (after_add k d v w)
   else Ok tt (after_add k d v w)) = Ok tt w' →
  kept w' ∧ watched w'.
Proof.
  intros Hd Hk Hwa.
  pose proof (after_add_kept w k d v Hd Hk) as (Hw1 & Hl1 & Hc1 & Hs1).
  destruct (sweep_due d (cleanupInterval (tbl w))) eqn:E.
  - by apply sweep_establishes.
  - intros [= <-]. split; [done|]. by apply after_add_watched.
Qed.

Lemma Add_kept (w w' : World) (k : Key) (d : Z) (v : Val) (p : loc) :
  in_int64 d → kept w → watched w →
  Add range_order k d v w = Ok p w' → kept w' ∧ watched w'.
Proof.
  intros Hd Hk Hwa. rewrite Add_spec by apply Hk.
  intros Hrun. apply (added_kept w w' k d v Hd Hk Hwa).
  destruct (sweep_due d (cleanupInterval (tbl w))).
  - unfold bind in Hrun.
    destruct (expirationCheck range_order (after_add k d v w))
      as [[] w1| |]; try done. by injection Hrun as _ <-.
  - by injection Hrun as _ <-.
Qed.

Lemma NotFoundAdd_kept (w w' : World) (k : Key) (d : Z) (v : Val)
  (b : bool) :
  in_int64 d → kept w → watched w →
  NotFoundAdd range_order k d v w = Ok b w' → kept w' ∧ watched w'.
Proof.
  intros Hd Hk Hwa.
  destruct (items (tbl w) !! k) as [p|] eqn:Hin.
  - rewrite (NotFoundAdd_present_spec range_order w k d v p)
      by (done || apply Hk).
    by intros [= _ <-].
  - rewrite NotFoundAdd_absent_spec by (done || apply Hk).
    intros Hrun. apply (added_kept w w' k d v Hd Hk Hwa).
    destruct (sweep_due d (cleanupInterval (tbl w))).
    + unfold bind in Hrun.
      destruct (expirationCheck range_order (after_add k d v w))
        as [[] w1| |]; try done. by injection Hrun as _ <-.
    + by injection Hrun as _ <-.
Qed.

Lemma Delete_kept (w w' : World) (k : Key) (r : option loc * option Err) :
  kept w → watched w → Delete k w = Ok r w' → kept w' ∧ watched w'.
Proof.
  intros (Hw & Hl & Hc & Hs) Hwa Hrun.
  pose proof (Delete_well_formed w w' k r Hw Hrun) as Hw'.
  rewrite Delete_spec in Hrun by apply Hw. injection Hrun as _ <-.
  assert (Hsub : ∀ k' it, item_of (after_Delete k w) k' = Some it →
                          item_of w k' = Some it).
  { intros k' it. unfold item_of, item_at. simpl.
    destruct (decide (k = k')) as [->|Hne].
    - by rewrite lookup_delete_eq.
    - by rewrite lookup_delete_ne. }
  split; [split; [done|split; [done|split; [|done]]]|].
  - intros k' it Hit. by apply (Hc k'), Hsub.
  - intros k' it Hit. by apply (Hwa k'), Hsub.
Qed.

Lemma Flush_kept (w w' : World) :
  kept w → Flush w = Ok tt w' → kept w' ∧ watched w'.
Proof.
  intros (Hw & Hl & Hc & Hs) Hrun.
  pose proof (Flush_well_formed w w' Hw Hrun) as Hw'.
  rewrite Flush_spec in Hrun by apply Hw. injection Hrun as <-.
  assert (Hf : items (tbl (after_Flush w)) = ∅
               ∧ cleanupInterval (tbl (after_Flush w)) = 0
               ∧ loadData (tbl (after_Flush w)) = loadData (tbl w)).
  { simpl. unfold stop_timer. simpl.
    destruct (cleanupTimer (tbl w)); simpl; done. }
  destruct Hf as (Hi & Hci & Hld).
  assert (Hnone : ∀ k, item_of (after_Flush w) k = None).
  { intros k. unfold item_of, item_at. by rewrite Hi, lookup_empty. }
  split; [split; [done|split; [|split]]|].
  - intros load k args it. rewrite Hld. apply Hl.
  - intros k it. by rewrite Hnone.
  - unfold steady. rewrite Hci. split; [done|]. split; [lia|].
    intros _. unfold idle. simpl. intros tm.
    apply (stop_timer_idle (set_interval 0 (set_items ∅ (tbl w))) tm).
  - intros k it. by rewrite Hnone.
Qed.

Lemma after_hit_kept (w : World) (k : Key) (p : loc) (it : CacheItem) :
  kept w → watched w →
  items (tbl w) !! k = Some p → heap w !! p = Some it →
  kept (after_hit p it w) ∧ watched (after_hit p it w).
Proof.
  intros (Hw & Hl & Hc & Hs) Hwa Hk Hp.
  assert (Hlt : (p < length (heap w))%nat) by (eapply lookup_lt_Some; eauto).
  assert (Hitem : ∀ k' it', item_of (after_hit p it w) k' = Some it' →
            ∃ it0, item_of w k' = Some it0
                   ∧ lifeSpan it' = lifeSpan it0
                   ∧ createdOn it' = createdOn it0
                   ∧ accessedOn it0 <= accessedOn it').
  { intros k' it'. unfold item_of, item_at. simpl.
    destruct (items (tbl w) !! k') as [p'|] eqn:Hk'; [|done]. simpl.
    destruct (decide (p = p')) as [<-|Hne].
    - rewrite list_lookup_insert_eq by done. intros [= <-].
      exists it. rewrite Hp. simpl. split; [done|]. split; [done|].
      split; [done|].
      destruct (proj1 (proj2 Hw) k it) as [_ Ha].
      { unfold item_of, item_at. by rewrite Hk. }
      pose proof (now_of_ge w). lia.
    - rewrite list_lookup_insert_ne by done. intros Hp'.
      exists it'. split; [done|]. split; [done|]. split; [done|lia]. }
  split; [split; [by eapply after_hit_well_formed|split; [done|split]]|].
  - intros k' it' Hit'.
    destruct (Hitem k' it' Hit') as (it0 & H0 & _ & Hcr & Hacc).
    specialize (Hc k' it0 H0). lia.
  - done.
  - intros k' it' Hit' Hpos.
    destruct (Hitem k' it' Hit') as (it0 & H0 & Hls & _).
    apply (Hwa k' it0 H0). lia.
Qed.

Lemma after_load_kept (w : World) (k : Key) (args : list Val)
  (loaded : CacheItem) :
  kept w → watched w →
  kept (after_load k args loaded w) ∧ watched (after_load k args loaded w).
Proof.
  intros (Hw & Hl & Hc & Hs) Hwa.
  assert (Hitem : ∀ k' it, item_of (after_load k args loaded w) k' = Some it
                           → item_of w k' = Some it).
  { intros k' it. unfold item_of, item_at. simpl.
    destruct (items (tbl w) !! k') as [p|] eqn:Hk; [|done]. simpl.
    destruct (proj2 (proj1 Hw) _ _ Hk) as (it0 & Hp & _).
    rewrite (lookup_app_l_Some _ _ _ _ Hp). by rewrite Hp. }
  split; [split; [by apply after_load_well_formed|split; [done|split]]|].
  - intros k' it Hit. by apply (Hc k'), Hitem.
  - done.
  - intros k' it Hit. by apply (Hwa k'), Hitem.
Qed.

Lemma Value_kept (w w' : World) (k : Key) (args : list Val)
  (r : option loc * option Err) :
  kept w → watched w →
  Value range_order k args w = Ok r w' → kept w' ∧ watched w'.
Proof.
  intros Hk Hwa.
  destruct (items (tbl w) !! k) as [p|] eqn:Hin.
  - destruct (proj2 (proj1 (proj1 Hk)) _ _ Hin) as (it & Hp & Hm).
    rewrite (Value_hit range_order w k args p it)
      by (done || apply Hk).
    intros [= _ <-]. by eapply after_hit_kept.
  - destruct (loadData (tbl w)) as [load|] eqn:El.
    + destruct (load k [VSlice args]) as [loaded|] eqn:Eload.
      * rewrite (Value_miss_load_spec range_order w k args load loaded)
          by (done || apply Hk).
        unfold bind.
        destruct (Add range_order k (lifeSpan loaded) _ _)
          as [q w1| |] eqn:E; try done.
        intros [= _ <-].
        destruct (after_load_kept w k args loaded Hk Hwa) as [Hk1 Hwa1].
        apply (Add_kept (after_load k args loaded w) w1 k
                 (lifeSpan loaded) (VItem (length (heap w))) q);
          [|done|done|exact E].
        destruct Hk as (_ & Hl & _). by eapply Hl.
      * rewrite (Value_miss_not_loadable range_order w k args load)
          by (done || apply Hk).
        intros [= _ <-].
        apply (same_store_kept w);
          [done|done|apply Hk|simpl; lia|done|done|apply Hk|done].
    + rewrite Value_miss_no_loader by (done || apply Hk).
      by intros [= _ <-].
Qed.

Lemma config_kept (w : World) (t : CacheTable) :
  items t = items (tbl w) → tmu t = unlocked →
  cleanupInterval t = cleanupInterval (tbl w) →
  cleanupTimer t = cleanupTimer (tbl w) →
  loader_ok t →
  kept w ∧ watched w → kept (set_tbl t w) ∧ watched (set_tbl t w).
Proof.
  intros Hi Ht Hci Htm Hl.
  apply same_store_kept; [done|done|done|simpl; lia|done|done|done].
Qed.

Lemma call_kept (w w' : World) (c : Call) :
  call_typed c → kept w ∧ watched w →
  call range_order c w = Ok tt w' → kept w' ∧ watched w'.
Proof.
  intros Hty [Hk Hwa].
  assert (Ht : tmu (tbl w) = unlocked) by apply Hk.
  assert (Hl : loader_ok (tbl w)) by apply Hk.
  destruct c; simpl in *.
  - unfold bind. destruct (Add range_order k d v w) as [p w1| |] eqn:E;
      try done. intros [= <-]. by eapply Add_kept.
  - unfold bind.
    destruct (NotFoundAdd range_order k d v w) as [b w1| |] eqn:E;
      try done. intros [= <-]. by eapply NotFoundAdd_kept.
  - unfold bind.
    destruct (Value range_order k args w) as [r w1| |] eqn:E;
      try done. intros [= <-]. by eapply Value_kept.
  - unfold bind. destruct (Delete k w) as [r w1| |] eqn:E;
      try done. intros [= <-]. by eapply Delete_kept.
  - intros Hrun. by eapply Flush_kept.
  - unfold bind. rewrite Exists_spec by done. by intros [= <-].
  - unfold bind. rewrite Count_spec by done. by intros [= <-].
  - intros Hrun. by eapply sweep_establishes; [apply Hk..|].
  - rewrite SetDataLoader_spec by done. intros [= <-].
    apply config_kept; try done.
    intros load k args it [= <-]. apply Hty.
  - rewrite SetAddedItemCallback_spec by done. intros [= <-].
    by apply config_kept.
  - rewrite AddAddedItemCallback_spec by done. intros [= <-].
    by apply config_kept.
  - rewrite RemoveAddedItemCallbacks_spec by done. intros [= <-].
    by apply config_kept.
  - rewrite SetAboutToDeleteItemCallback_spec by done. intros [= <-].
    by apply config_kept.
  - rewrite AddAboutToDeleteItemCallback_spec by done. intros [= <-].
    by apply config_kept.
  - rewrite RemoveAboutToDeleteItemCallback_spec by done. intros [= <-].
    by apply config_kept.
Qed.

Lemma reachable_kept (w : World) :
  reachable range_order w → kept w ∧ watched w.
Proof.
  induction 1 as [table tk|w w' c _ IH Hty Hrun|w tk _ IH].
  - split; [split; [|split; [|split]]|].
    + split; [split; [done|]|split]; unfold valid, timely,
        injective_items, item_of, item_at; simpl; intros *;
        by rewrite lookup_empty.
    + by intros load k args it.
    + intros k it. unfold item_of, item_at. simpl.
      by rewrite lookup_empty.
    + split; [done|]. split; [done|]. by intros _ tm.
    + intros k it. unfold item_of, item_at. simpl.
      by rewrite lookup_empty.
  - by eapply call_kept.
  - apply (same_store_kept w);
      [done|done|apply IH|simpl; lia|done|done|apply IH|done].
Qed.

(** X17. In every world a program reaches from a new table by calls that
    return (Add, NotFoundAdd, Value, Delete, Flush, Exists, Count, the
    timer's sweep, and the registration of callbacks and loader): the
    table's lock and the locks of its items are free; every entry leads to
    an allocated item and no two keys to the same one; lifespans are int64
    durations; and no item was created after its last access or accessed
    in the future of the clock. *)
Theorem reachable_worlds_are_well_formed (w : World) :
  reachable range_order w →
  well_formed w ∧ created_first w.
Proof.
  intros Hr. destruct (reachable_kept w Hr) as [(Hw & _ & Hc & _) _].
  done.
Qed.

(** X18. In every such world the interval is the duration of the pending
    timer: it is not negative; when it is positive a timer is armed for
    it, and when it is 0 none is pending; and as long as an item with a
    positive lifespan is in the table, a timer is armed. *)
Theorem reachable_worlds_have_their_timer (w : World) :
  reachable range_order w →
  steady w ∧ watched w.
Proof.
  intros Hr. destruct (reachable_kept w Hr) as [(_ & _ & _ & Hs) Hwa].
  done.
Qed.

End Reachable.

(** ** The further properties at concrete tables *)

Lemma test_world_quiescent (c : Z) (tk : list N) :
  quiescent (test_world c tk).
Proof. apply quiescentb_sound. vm_compute. reflexivity. Qed.

Lemma Delete_removes_only_its_key_witness :
  tmu (tbl (test_world 0 [])) = unlocked
  ∧ ∃ w', Delete (KStr "testkey_1") (test_world 0 [])
          = Ok (None, Some ErrKeyNotFound) w'
          ∧ items (tbl w') !! KStr "testkey_1" = None
          ∧ items (tbl w') !! KStr "testkey_2" = Some 1%nat
          ∧ heap w' = heap (test_world 0 []).
Proof.
  split; [reflexivity|].
  destruct (Delete_removes_only_its_key (test_world 0 [])
              (KStr "testkey_1") eq_refl)
    as (w' & Hrun & Hk & Hother & _ & Hh & _).
  exists w'. split; [exact Hrun|]. split; [exact Hk|].
  split; [|exact Hh].
  rewrite (Hother (KStr "testkey_2")) by discriminate.
  vm_compute. reflexivity.
Defined.

Lemma deleteInternal_callbacks_then_removal_witness :
  tmu (tbl (set_tbl (set_tmu locked (tbl (test_world 0 [])))
              (test_world 0 []))) = locked
  ∧ valid (set_tbl (set_tmu locked (tbl (test_world 0 [])))
             (test_world 0 []))
  ∧ ∃ w', deleteInternal (KStr "testkey_1")
            (set_tbl (set_tmu locked (tbl (test_world 0 [])))
               (test_world 0 []))
          = Fatal unlock_msg w'
          ∧ trace w' = [EvAboutToDelete 2%nat 0%nat;
                        EvAboutToExpire 0%nat 3%nat (KStr "testkey_1");
                        EvMapDelete (KStr "testkey_1")].
Proof.
  assert (Hv : valid (set_tbl (set_tmu locked (tbl (test_world 0 [])))
                        (test_world 0 [])))
    by exact (proj2 (test_world_quiescent 0 [])).
  split; [reflexivity|]. split; [exact Hv|].
  destruct (proj2 (deleteInternal_callbacks_then_removal
                     (set_tbl (set_tmu locked (tbl (test_world 0 [])))
                        (test_world 0 []))
                     (KStr "testkey_1") eq_refl Hv) 0%nat item_1)
    as (w' & Hrun & Htr & _).
  - vm_compute. reflexivity.
  - reflexivity.
  - exists w'. split; [exact Hrun|exact Htr].
Defined.

Lemma Add_then_lookups_witness :
  quiescent (test_world 0 [])
  ∧ Add key_order (KStr "a") 0 (VStr "x") (test_world 0 [])
    = Ok 2%nat (world_of (Add key_order (KStr "a") 0 (VStr "x")
                            (test_world 0 [])))
  ∧ Exists (KStr "a")
      (world_of (Add key_order (KStr "a") 0 (VStr "x") (test_world 0 [])))
    = Ok true
        (world_of (Add key_order (KStr "a") 0 (VStr "x") (test_world 0 [])))
  ∧ Count
      (world_of (Add key_order (KStr "a") 0 (VStr "x") (test_world 0 [])))
    = Ok 3
        (world_of (Add key_order (KStr "a") 0 (VStr "x") (test_world 0 []))).
Proof.
  assert (Hrun : Add key_order (KStr "a") 0 (VStr "x") (test_world 0 [])
                 = Ok 2%nat (world_of (Add key_order (KStr "a") 0 (VStr "x")
                                         (test_world 0 []))))
    by (vm_compute; reflexivity).
  split; [apply test_world_quiescent|]. split; [exact Hrun|].
  destruct (Add_then_lookups key_order (test_world 0 []) _ (KStr "a") 0
              (VStr "x") 2%nat [] (test_world_quiescent 0 []) Hrun)
    as (Hex & Hcount & _).
  split; [exact Hex|]. apply Hcount. vm_compute. reflexivity.
Defined.

Lemma Add_returns_or_stops_witness :
  quiescent (test_world 0 [0%N; 1%N])
  ∧ (∃ w', Add key_order (KStr "a") (-1) (VStr "x")
             (test_world 0 [0%N; 1%N]) = Ok 2%nat w')
  ∧ (∃ w', Add key_order (KStr "a") 1 (VStr "x")
             (test_world 0 [0%N; 1%N]) = Fatal unlock_msg w').
Proof.
  split; [apply test_world_quiescent|]. split.
  - apply (proj1 (proj2 (Add_returns_or_stops key_order key_order_perm
                           (test_world 0 [0%N; 1%N]) (KStr "a") (-1)
                           (VStr "x") (test_world_quiescent 0 _)))).
    left. apply (proj1 (Add_returns_or_stops key_order key_order_perm
                          (test_world 0 [0%N; 1%N]) (KStr "a") (-1)
                          (VStr "x") (test_world_quiescent 0 _))).
    lia.
  - apply (proj2 (proj2 (Add_returns_or_stops key_order key_order_perm
                           (test_world 0 [0%N; 1%N]) (KStr "a") 1
                           (VStr "x") (test_world_quiescent 0 _)))
             (KStr "a") (new_item (KStr "a") 1 (VStr "x") 0));
      vm_compute; reflexivity.
Defined.

Lemma Value_hit_touches_one_item_witness :
  quiescent (test_world 7 [5%N])
  ∧ ∃ w', Value key_order (KStr "testkey_2") [] (test_world 7 [5%N])
          = Ok (Some 1%nat, None) w'
          ∧ tbl w' = tbl (test_world 7 [5%N])
          ∧ heap w' !! 0%nat = Some item_1.
Proof.
  split; [apply test_world_quiescent|].
  destruct (Value_hit_touches_one_item key_order (test_world 7 [5%N])
              (KStr "testkey_2") [] 1%nat (test_world_quiescent 7 _))
    as (w' & Hrun & Ht & _ & _ & Hother).
  - vm_compute. reflexivity.
  - exists w'. split; [exact Hrun|]. split; [exact Ht|].
    rewrite (Hother 0%nat) by discriminate. reflexivity.
Defined.

Lemma removal_then_lookups_witness :
  tmu (tbl (test_world 0 [])) = unlocked
  ∧ (∃ r w', Delete (KStr "testkey_1") (test_world 0 []) = Ok r w'
             ∧ Exists (KStr "testkey_1") w' = Ok false w'
             ∧ Value key_order (KStr "testkey_1") [] w'
               = Ok (None, Some ErrKeyNotFound) w')
  ∧ (∃ w', Flush (test_world 0 []) = Ok tt w'
           ∧ Exists (KStr "testkey_1") w' = Ok false w').
Proof.
  split; [reflexivity|].
  destruct (removal_then_lookups key_order (test_world 0 [])
              (KStr "testkey_1") [] eq_refl)
    as [(r & w1 & Hd & He & Hv) (w2 & Hf & He2 & _)].
  split.
  - exists r, w1. split; [exact Hd|]. split; [exact He|].
    apply Hv. reflexivity.
  - exists w2. split; [exact Hf|exact He2].
Defined.

Lemma NotFoundAdd_twice_witness :
  quiescent (empty_world None [])
  ∧ NotFoundAdd key_order (KStr "k") second (VStr "first")
      (empty_world None [])
    = Ok true (world_of (NotFoundAdd key_order (KStr "k") second
                           (VStr "first") (empty_world None [])))
  ∧ NotFoundAdd key_order (KStr "k") 0 (VStr "second")
      (world_of (NotFoundAdd key_order (KStr "k") second (VStr "first")
                   (empty_world None [])))
    = Ok false
        (world_of (NotFoundAdd key_order (KStr "k") second (VStr "first")
                     (empty_world None []))).
Proof.
  assert (Hq : quiescent (empty_world None []))
    by (apply quiescentb_sound; vm_compute; reflexivity).
  assert (Hrun : NotFoundAdd key_order (KStr "k") second (VStr "first")
                   (empty_world None [])
                 = Ok true (world_of (NotFoundAdd key_order (KStr "k") second
                                        (VStr "first") (empty_world None []))))
    by (vm_compute; reflexivity).
  split; [exact Hq|]. split; [exact Hrun|].
  exact (proj1 (NotFoundAdd_twice key_order (empty_world None []) _
                  (KStr "k") second 0 (VStr "first") (VStr "second")
                  Hq Hrun)).
Defined.

Lemma lifespan_0_survives_sweeps_witness :
  quiescent (test_world (5 * second) [])
  ∧ item_of (test_world (5 * second) []) (KStr "testkey_1") = Some item_1
  ∧ items (tbl (world_of (times 3 (expirationCheck key_order)
                            (test_world (5 * second) []))))
      !! KStr "testkey_1"
    = Some 0%nat.
Proof.
  split; [apply test_world_quiescent|]. split; [vm_compute; reflexivity|].
  rewrite (proj1 (lifespan_0_survives_sweeps key_order
                    (test_world (5 * second) []) (KStr "testkey_1") item_1
                    3 (test_world_quiescent _ _)
                    ltac:(vm_compute; reflexivity) eq_refl)).
  vm_compute. reflexivity.
Defined.

Lemma MostAccessed_loops_witness :
  valid (test_world 0 [])
  ∧ ∃ p, pairs_of (key_order (items (tbl (test_world 0 []))))
           (test_world 0 []) = Ok p (test_world 0 [])
         ∧ (length (top_items (items (tbl (test_world 0 []))) 1 0
                      (insertion_sort p)) <= 1)%nat.
Proof.
  assert (Hv : valid (test_world 0 []))
    by exact (proj2 (test_world_quiescent 0 [])).
  split; [exact Hv|].
  destruct (MostAccessed_loops insertion_sort insertion_sort_perm
              insertion_sort_sorted (test_world 0 [])
              (key_order (items (tbl (test_world 0 [])))) 1 Hv)
    as (p & Hp & _ & Hlen & _).
  - unfold max_int64. lia.
  - exists p. split; [exact Hp|].
    etrans; [exact Hlen|]. apply (Nat.le_min_l 1).
Defined.

Lemma table_callback_registration_witness :
  tmu (tbl (test_world 0 [])) = unlocked
  ∧ addItem (tbl (test_world 0 [])) = [1%nat]
  ∧ addItem (tbl (world_of (SetAddedItemCallback 9%nat (test_world 0 []))))
    = [9%nat]
  ∧ addItem (tbl (world_of (AddAddedItemCallback 9%nat (test_world 0 []))))
    = [1%nat; 9%nat].
Proof.
  split; [reflexivity|]. split; [reflexivity|].
  destruct (table_callback_registration (test_world 0 []) 9%nat eq_refl)
    as (Hset & Hadd & _).
  split.
  - rewrite Hset. reflexivity.
  - rewrite Hadd. reflexivity.
Defined.

Lemma item_callback_registration_witness :
  heap (test_world 0 []) !! 0%nat = Some item_1
  ∧ aboutToExpire item_1 = [3%nat]
  ∧ SetAboutToExpireCallback 0%nat 9%nat (test_world 0 [])
    = Ok tt (set_heap (<[0%nat := set_aboutToExpire [9%nat] item_1]>
                         (heap (test_world 0 []))) (test_world 0 [])).
Proof.
  split; [reflexivity|]. split; [reflexivity|].
  exact (proj1 (item_callback_registration (test_world 0 []) 0%nat item_1
                  9%nat eq_refl eq_refl)).
Defined.

Lemma SetDataLoader_then_miss_witness :
  tmu (tbl (test_world 0 [])) = unlocked
  ∧ ∃ w1 w2,
      SetDataLoader (z_loader 0) (test_world 0 []) = Ok tt w1
      ∧ Value key_order (KStr "y") [] w1
        = Ok (None, Some ErrKeyNotFoundOrLoadable) w2
      ∧ items (tbl w2) = items (tbl (test_world 0 [])).
Proof.
  split; [reflexivity|].
  destruct (SetDataLoader_then_miss key_order (test_world 0 []) (z_loader 0)
              (KStr "y") [] eq_refl)
    as (w1 & w2 & Hs & _ & Hv & Hi & _).
  - vm_compute. reflexivity.
  - reflexivity.
  - exists w1, w2. split; [exact Hs|]. split; [exact Hv|exact Hi].
Defined.

Lemma KeepAlive_then_getters_witness :
  heap (test_world 7 [5%N]) !! 1%nat = Some item_2
  ∧ ∃ w', KeepAlive 1%nat (test_world 7 [5%N]) = Ok tt w'
          ∧ AccessedOn 1%nat w' = Ok 12 w'
          ∧ AccessCount 1%nat w' = Ok 1 w'
          ∧ LifeSpan 1%nat w' = Ok second w'
          ∧ CreatedOn 1%nat w' = Ok 0 w'.
Proof.
  split; [reflexivity|].
  destruct (KeepAlive_then_getters (test_world 7 [5%N]) 1%nat item_2
              eq_refl eq_refl)
    as (w' & Hrun & _ & Ha & _ & Hc & _ & Hl & Hcr & _).
  exists w'. split; [exact Hrun|]. split; [exact Ha|].
  split; [|split; [exact Hl|exact Hcr]].
  apply Hc. unfold min_int64, max_int64. simpl. lia.
Defined.

Lemma Foreach_visits_every_entry_once_witness :
  tmu (tbl (test_world 0 [])) = unlocked
  ∧ ∃ visited,
      trace (world_of (Foreach key_order (λ k p, emit [EvMapStore k p])
                         (test_world 0 [])))
      = map (λ kp, EvMapStore kp.1 kp.2) visited
      ∧ visited ≡ₚ [(KStr "testkey_1", 0%nat); (KStr "testkey_2", 1%nat)].
Proof.
  split; [reflexivity|].
  destruct (Foreach_visits_every_entry_once key_order key_order_perm
              (test_world 0 []) EvMapStore eq_refl)
    as (visited & Hrun & Hperm & _).
  exists visited. split.
  - rewrite Hrun. reflexivity.
  - rewrite Hperm.
    replace (map_to_list (items (tbl (test_world 0 []))))
      with [(KStr "testkey_1", 0%nat); (KStr "testkey_2", 1%nat)]
      by (vm_compute; reflexivity).
    reflexivity.
Defined.

Lemma Foreach_reentrancy_witness :
  tmu (tbl (test_world 0 [])) = unlocked
  ∧ Foreach key_order (λ k _, Exists k ;;; ret tt) (test_world 0 [])
    = Ok tt (test_world 0 [])
  ∧ ∃ w', Foreach key_order (λ k _, Delete k ;;; ret tt) (test_world 0 [])
          = Blocked w'.
Proof.
  split; [reflexivity|].
  destruct (Foreach_reentrancy key_order key_order_perm (test_world 0 [])
              eq_refl)
    as (Hread & Hwrite & _).
  split; [exact Hread|].
  apply Hwrite. intros He.
  assert (H : items (tbl (test_world 0 [])) !! KStr "testkey_1" = None)
    by (rewrite He; apply lookup_empty).
  vm_compute in H. discriminate H.
Defined.

Lemma test_world_reachable :
  ∃ w, reachable key_order w
       ∧ items (tbl w) !! KStr "testkey_2" = Some 1%nat
       ∧ cleanupInterval (tbl w) = second.
Proof.
  eexists. split.
  - eapply (reach_call key_order _ _
              (CallAdd (KStr "testkey_2") second (VStr "testvalue"))).
    + eapply (reach_call key_order _ _
                (CallAdd (KStr "testkey_1") 0 (VStr "testvalue"))).
      * apply (reach_new key_order "testCache" []).
      * unfold call_typed, in_int64, min_int64, max_int64. lia.
      * vm_compute. reflexivity.
    + unfold call_typed, in_int64, min_int64, max_int64, second. lia.
    + vm_compute. reflexivity.
  - split; vm_compute; reflexivity.
Qed.

Lemma reachable_worlds_are_well_formed_witness :
  ∃ w, reachable key_order w
       ∧ items (tbl w) !! KStr "testkey_2" = Some 1%nat
       ∧ well_formed w ∧ created_first w.
Proof.
  destruct test_world_reachable as (w & Hr & Hk & _).
  exists w. split; [exact Hr|]. split; [exact Hk|].
  exact (reachable_worlds_are_well_formed key_order key_order_perm w Hr).
Defined.

Lemma reachable_worlds_have_their_timer_witness :
  ∃ w, reachable key_order w
       ∧ cleanupInterval (tbl w) = second
       ∧ steady w ∧ watched w.
Proof.
  destruct test_world_reachable as (w & Hr & _ & Hci).
  exists w. split; [exact Hr|]. split; [exact Hci|].
  exact (reachable_worlds_have_their_timer key_order key_order_perm w Hr).
Defined.

(** X19. When [Add(k, d, v)] returns, it has changed the entry of [k]
    only: every other entry is as before, every item that existed is
    untouched, the displaced item included (a handle to it still reads
    what it read), and the new item is none of them; callbacks, loader
    and name of the table are as before. *)
Theorem Add_touches_one_entry (range_order : gmap Key loc → list Key)
  (w w' : World) (k : Key) (d : Z) (v : Val) (p : loc) :
  quiescent w →
  Add range_order k d v w = Ok p w' →
  items (tbl w') !! k = Some p
  ∧ (∀ k', k' ≠ k → items (tbl w') !! k' = items (tbl w) !! k')
  ∧ (∀ q it, heap w !! q = Some it → heap w' !! q = Some it ∧ q ≠ p)
  ∧ addItem (tbl w') = addItem (tbl w)
  ∧ aboutToDeleteItem (tbl w') = aboutToDeleteItem (tbl w)
  ∧ loadData (tbl w') = loadData (tbl w)
  ∧ name (tbl w') = name (tbl w).
Proof.
  intros Hq Hrun.
  destruct (Add_Ok_inv range_order w w' k d v p Hq Hrun)
    as (-> & Hh & Hi & _ & _ & Hl).
  split; [rewrite Hi; apply lookup_insert_eq|].
  split; [intros k' Hne; rewrite Hi; by apply lookup_insert_ne|].
  split.
  { intros q it Hq0. split.
    - rewrite Hh. by apply lookup_app_l_Some.
    - apply lookup_lt_Some in Hq0. lia. }
  rewrite Add_spec in Hrun by apply Hq.
  destruct (sweep_due d (cleanupInterval (tbl w))).
  - pose proof (after_add_quiescent w k d v Hq) as Hq'.
    unfold bind in Hrun.
    rewrite (expirationCheck_spec range_order _ Hq') in Hrun.
    destruct (first_due _ _ _ _) as [[[k' p'] it']|]; [done|].
    injection Hrun as <-.
    destruct (sweep_end_frame
                (smallest_of (now_of (after_add k d v w))
                   (heap (after_add k d v w))
                   (items (tbl (after_add k d v w)))
                   (range_order (items (tbl (after_add k d v w)))) 0)
                (after_add k d v w))
      as (_ & _ & _ & _ & Hld & Hai & Had & Hn & _).
    split; [exact Hai|]. split; [exact Had|]. split; [exact Hld|exact Hn].
  - injection Hrun as <-. done.
Qed.

Lemma Add_touches_one_entry_witness :
  quiescent (test_world 0 [])
  ∧ Add key_order (KStr "testkey_1") 0 (VStr "new") (test_world 0 [])
    = Ok 2%nat (world_of (Add key_order (KStr "testkey_1") 0 (VStr "new")
                            (test_world 0 [])))
  ∧ heap (world_of (Add key_order (KStr "testkey_1") 0 (VStr "new")
                      (test_world 0 []))) !! 0%nat = Some item_1
  ∧ items (tbl (world_of (Add key_order (KStr "testkey_1") 0 (VStr "new")
                            (test_world 0 [])))) !! KStr "testkey_1"
    = Some 2%nat.
Proof.
  assert (Hrun : Add key_order (KStr "testkey_1") 0 (VStr "new")
                   (test_world 0 [])
                 = Ok 2%nat (world_of (Add key_order (KStr "testkey_1") 0
                                         (VStr "new") (test_world 0 []))))
    by (vm_compute; reflexivity).
  split; [apply test_world_quiescent|]. split; [exact Hrun|].
  destruct (Add_touches_one_entry key_order (test_world 0 []) _
              (KStr "testkey_1") 0 (VStr "new") 2%nat
              (test_world_quiescent 0 []) Hrun)
    as (Hk & _ & Hitems & _).
  split; [|exact Hk].
  exact (proj1 (Hitems 0%nat item_1 eq_refl)).
Defined.
